(** * consul-slack: the watcher's state store and diff engine

    A shallow embedding of [consul/consul.go] (and of the second variant of
    that file which the repository holds, which differs in how the lock and the
    session are handled),
    with the properties its specification states about them.

    Go slices are modelled as windows on backing arrays kept in a heap, so
    that the in-place [append] of [del] is visible to a [range] loop that
    still holds the slice header it started with. *)

From stdpp Require Import base option list strings gmap sorting.
From Stdlib Require Import ZArith Lia.

(** ** Data model *)

(** Go's [error] values: only their being nil or not matters here. *)
Definition error := string.

(** Modelled from the spec: the struct [api.HealthCheck] of the consul client
    library is declared outside this repository; these are the attributes the
    specification lists.  Matching is by [ServiceID] only. *)
Record HealthCheck := mkHealthCheck {
  Node : string;
  ServiceID : string;
  ServiceName : string;
  Status : string;
  Notes : string;
  Output : string
}.

(** The lines [infof] prints to stderr, by call site. *)
Inductive msg :=
| MsgCreated (sess : string)
| MsgLock (sess : string)
| MsgAcquired (sess : string)
| MsgRelease (sess : string)
| MsgDestroy (sess : string)
| MsgInitialState (cc : list HealthCheck)
| MsgPassing (node service : string)
| MsgFailing (node service : string).

(** ** Slices

    [api.HealthChecks] is [[]*HealthCheck].  The checks pointed to are never
    written, so a pointer is identified with the struct it points to; what is
    shared and written is the backing array of pointers. *)
Module Slices.

Abbreviation loc := nat (only parsing).

(** Backing arrays by address.  Cells of an array that were never written
    hold nil pointers and are not represented: an array is modelled by its
    written prefix, its size being the [cap] of the slices on it. *)
Abbreviation heap := (list (list HealthCheck)) (only parsing).

(** A slice header: array pointer (None for the nil slice), offset of the
    first element in the array, length and capacity. *)
Record slice := Slice {
  base : option loc;
  off : nat;
  len : nat;
  cap : nat
}.

Definition nil_slice : slice := Slice None 0 0 0.

Definition is_nil (s : slice) : bool :=
  match base s with None => true | Some _ => false end.

Definition backing (h : heap) (s : slice) : list HealthCheck :=
  default [] (base s ≫= λ l, h !! l).

(** [s[i]]; None is the run-time panic of an index out of range. *)
Definition index (h : heap) (s : slice) (i : nat) : option HealthCheck :=
  if decide (i < len s) then backing h s !! (off s + i) else None.

(** The elements a slice shows: [s[0], ..., s[len-1]]. *)
Definition elems (h : heap) (s : slice) : list HealthCheck :=
  take (len s) (drop (off s) (backing h s)).

(** [s[:j]] *)
Definition slice_to (s : slice) (j : nat) : option slice :=
  if decide (j ≤ cap s) then Some (Slice (base s) (off s) j (cap s))
  else None.

(** [s[i:]] *)
Definition slice_from (s : slice) (i : nat) : option slice :=
  if decide (i ≤ len s)
  then Some (Slice (base s) (off s + i) (len s - i) (cap s - i))
  else None.

(** Writing [xs] into an array from cell [p] on. *)
Definition store_at (xs : list HealthCheck) (p : nat)
    (a : list HealthCheck) : list HealthCheck :=
  take p a ++ xs ++ drop (p + length xs) a.

Section Append.
(** The capacity the runtime picks when it has to grow a slice of
    capacity [c] to hold [n] elements; it is never below [n]. *)
Variable growslice : nat → nat → nat.

(** [make] of a fresh array holding [xs]. *)
Definition alloc (h : heap) (xs : list HealthCheck) (c : nat)
    : heap * slice :=
  (h ++ [xs], Slice (Some (length h)) 0 (length xs) (length xs `max` c)).

(** [append(s, xs...)], the values [xs] having been read before anything
    is written (Go's copy is a memmove).  While the result fits the
    capacity it is written in place, into the array [s] points to. *)
Definition append (h : heap) (s : slice) (xs : list HealthCheck)
    : heap * slice :=
  let n := len s + length xs in
  if decide (n ≤ cap s) then
    (match base s with
     | Some l => alter (store_at xs (off s + len s)) l h
     | None => h
     end,
     Slice (base s) (off s) n (cap s))
  else alloc h (elems h s ++ xs) (growslice (cap s) n).
End Append.

(** A header is well formed in a heap when its array is there and holds
    the cells it shows; the nil slice has no capacity. *)
Definition wf (h : heap) (s : slice) : bool :=
  bool_decide (len s ≤ cap s) &&
  match base s with
  | Some l =>
      match h !! l with
      | Some a => bool_decide (off s + len s ≤ length a)
      | None => false
      end
  | None => bool_decide (cap s = 0)
  end.

End Slices.
Import Slices.

(** ** The diff engine *)

Section Engine.
Variable growslice : nat → nat → nat.

(** [pos] finds check's position in health checks slice or returns -1. *)
Fixpoint pos_from (i : Z) (hcs : list HealthCheck) (hc : HealthCheck) : Z :=
  match hcs with
  | [] => (-1)%Z
  | c :: rest =>
      if String.eqb (ServiceID c) (ServiceID hc) then i
      else pos_from (i + 1)%Z rest hc
  end.

Definition pos (hcs : list HealthCheck) (hc : HealthCheck) : Z :=
  pos_from 0%Z hcs hc.

(** [del] deletes the named element from health checks slice:
    [append(hcs[:i], hcs[i+1:]...)]. *)
Definition del (h : heap) (hcs : slice) (hc : HealthCheck)
    : option (heap * slice) :=
  let i := pos (elems h hcs) hc in
  if decide (i = (-1)%Z) then Some (h, hcs)
  else
    front ← slice_to hcs (Z.to_nat i);
    back ← slice_from hcs (Z.to_nat i + 1);
    Some (append growslice h front (elems h back)).

(** What the two loops of a tick read and write: the memory, the field
    [c.cc], the results [pc] and [cc] of [Next], and stderr. *)
Record tick_state := TickState {
  mem : heap;
  snapshot : slice;
  passing : list HealthCheck;
  critical : list HealthCheck;
  stderr : list msg
}.

(** [for _, check := range c.cc { ... }]: the header [hs] of [c.cc] is
    copied when the loop starts, the indices [ks] are [0 .. len(hs)-1], and
    [check] is read from the array on each round. *)
Fixpoint range_passing (hc : list HealthCheck) (hs : slice) (ks : list nat)
    (st : tick_state) : option tick_state :=
  match ks with
  | [] => Some st
  | k :: ks =>
      check ← index (mem st) hs k;
      if decide (pos hc check ≠ (-1)%Z) then range_passing hc hs ks st
      else
        '(h, s) ← del (mem st) (snapshot st) check;
        range_passing hc hs ks
          (TickState h s (passing st ++ [check]) (critical st)
             (stderr st ++ [MsgPassing (Node check) (ServiceName check)]))
  end.

Definition passing_loop (hc : list HealthCheck) (st : tick_state)
    : option tick_state :=
  range_passing hc (snapshot st) (seq 0 (len (snapshot st))) st.

(** [for _, check := range hc { ... }] *)
Fixpoint critical_loop (hc : list HealthCheck) (st : tick_state)
    : tick_state :=
  match hc with
  | [] => st
  | check :: hc =>
      if decide (pos (elems (mem st) (snapshot st)) check ≠ (-1)%Z)
      then critical_loop hc st
      else
        let '(h, s) := append growslice (mem st) (snapshot st) [check] in
        critical_loop hc
          (TickState h s (passing st) (critical st ++ [check])
             (stderr st ++ [MsgFailing (Node check) (ServiceName check)]))
  end.

(** One diff tick: the passing loop, then the critical loop. *)
Definition tick (hc : list HealthCheck) (st : tick_state)
    : option tick_state :=
  critical_loop hc <$> passing_loop hc st.

End Engine.

(** ** The coordination service, as the client sees it *)

Definition bytes := list Byte.byte.

(** [api.KVPair], the fields the watcher sets. *)
Record KVPair := mkKVPair {
  Key : string;
  Value : bytes;
  Session : string
}.

(** The requests the watcher sends, in the order it sends them. *)
Inductive request :=
| ReqLeader
| ReqSessionCreate
| ReqSessionDestroy (sess : string)
| ReqGet (key : string)
| ReqPut (key : string) (value : bytes)
| ReqAcquire (p : KVPair)
| ReqRelease (p : KVPair)
| ReqHealthState (state : string).

(** The process memory, the key-value store of the coordination service,
    stderr, and the requests sent so far. *)
Record world := World {
  w_mem : heap;
  w_kv : gmap string bytes;
  w_stderr : list msg;
  w_sent : list request
}.

Definition infof (m : msg) (w : world) : world :=
  World (w_mem w) (w_kv w) (w_stderr w ++ [m]) (w_sent w).

Definition send (r : request) (w : world) : world :=
  World (w_mem w) (w_kv w) (w_stderr w) (w_sent w ++ [r]).

(** Modelled from the spec: the key-value capability of the coordination
    service, [get(key)] and [put(key, value)].  The put is atomic per key and
    a failed put leaves the previous value; [net] is the transport failure of
    this call, if any. *)
Definition kv_Get (net : option error) (key : string) (w : world)
    : world * option bytes * option error :=
  let w := send (ReqGet key) w in
  match net with
  | Some e => (w, None, Some e)
  | None => (w, w_kv w !! key, None)
  end.

Definition kv_Put (net : option error) (key : string) (value : bytes)
    (w : world) : world * option error :=
  let w := send (ReqPut key value) w in
  match net with
  | Some e => (w, Some e)
  | None =>
      (World (w_mem w) (<[key := value]> (w_kv w)) (w_stderr w) (w_sent w),
       None)
  end.

(** A Go channel nobody sends on: open, or closed. *)
Inductive chan := ChOpen | ChClosed.

(** How a call ends. *)
Inductive ret :=
| Done                      (* returns nil *)
| Failed (e : error)        (* returns a non-nil error *)
| Panic (reason : string)   (* run-time panic *)
| Blocked.                  (* still waiting: no more events were given *)

(** ** consul.go *)

Section Watcher.
Variable growslice : nat → nat → nat.

(** [encoding/json] on [api.HealthChecks]: [json.Marshal], and
    [json.Unmarshal] into an empty slice, which gives the decoded checks
    (what was decoded before the error, when there is one).  A JSON null,
    which would leave the slice nil, is never written by [dump]: the
    [c.cc] it marshals is not nil. *)
Variable json_Marshal : list HealthCheck → bytes + error.
Variable json_Unmarshal : bytes → list HealthCheck * option error.

Definition lockKey : string := "consul-slack/.lock".
Definition stateKey : string := "consul-slack/state".

Record Consul := mkConsul {
  lock : option KVPair;
  locked : bool;
  stopCh : chan;
  interval : Z;
  cc : slice
}.

Definition set_cc (s : slice) (c : Consul) : Consul :=
  mkConsul (lock c) (locked c) (stopCh c) (interval c) s.

Definition set_mem (h : heap) (w : world) : world :=
  World h (w_kv w) (w_stderr w) (w_sent w).

(** [load] loads consul state from kv store. *)
Definition load (net : option error) (w : world)
    : world * slice * option error :=
  match kv_Get net stateKey w with
  | (w, _, Some err) => (w, nil_slice, Some err)
  | (w, kv, None) =>
      let '(h, chs) := alloc (w_mem w) [] 0 in
      match kv with
      | None => (set_mem h w, chs, None)
      | Some value =>
          let '(xs, err) := json_Unmarshal value in
          let '(h, chs) := alloc h xs (growslice 0 (length xs)) in
          (set_mem h w, chs, err)
      end
  end.

(** [dump] saves consul state to kv store. *)
Definition dump (net : option error) (chs : slice) (w : world)
    : world * option error :=
  match json_Marshal (elems (w_mem w) chs) with
  | inr err => (w, Some err)
  | inl b => kv_Put net stateKey b w
  end.

(** What wakes the [select] of [Next]: the receive from [c.stopCh] (the
    channel has been closed, by a [Close] that ran before or while [Next]
    waits), or the timer; with the timer come the answers to the two
    requests of the tick, the health query and the put of [dump]. *)
Inductive wakeup :=
| StopCh
| TimerC (state : list HealthCheck + error) (put : option error).

(** The results [cc], [pc] and [err] of [Next], when it returns. *)
Inductive outcome :=
| Returned (cc pc : list HealthCheck) (err : option error)
| Waiting
| Panicked.

(** The [for { select { ... } }] of [Next]; [rcc], [rpc] and [err] are the
    named results, which live across the rounds. *)
Fixpoint Next_loop (ws : list wakeup) (c : Consul) (w : world)
    (rcc rpc : list HealthCheck) (err : option error)
    : outcome * Consul * world :=
  match ws with
  | [] => (Waiting, c, w)
  | StopCh :: _ => (Returned rcc rpc err, c, w)
  | TimerC state put :: ws =>
      let w := send (ReqHealthState "critical") w in
      match state with
      | inr e => (Returned rcc rpc (Some e), c, w)
      | inl hc =>
          match tick growslice hc
                  (TickState (w_mem w) (cc c) rpc rcc (w_stderr w)) with
          | None => (Panicked, c, w)
          | Some st =>
              let c := set_cc (snapshot st) c in
              let w := World (mem st) (w_kv w) (stderr st) (w_sent w) in
              let rcc := critical st in
              let rpc := passing st in
              let '(w, err) := dump put (cc c) w in
              match err with
              | Some _ => (Returned rcc rpc err, c, w)
              | None =>
                  if decide (0 < length rcc ∨ 0 < length rpc)
                  then (Returned rcc rpc err, c, w)
                  else Next_loop ws c w rcc rpc err
              end
          end
      end
  end.

(** [Next] returns slices of critical and passing events.  [get] is the
    transport failure of the initial [load], if any. *)
Definition Next (get : option error) (ws : list wakeup) (c : Consul)
    (w : world) : outcome * Consul * world :=
  if is_nil (cc c) then
    let '(w, chs, err) := load get w in
    let c := set_cc chs c in
    match err with
    | Some _ => (Returned [] [] err, c, w)
    | None =>
        let w := infof (MsgInitialState (elems (w_mem w) (cc c))) w in
        Next_loop ws c w [] [] None
    end
  else Next_loop ws c w [] [] None.

(** [Close] shuts down Next() function.  [release] and [destroy] are the
    errors of the two requests, if any; reading [c.lock.Session] of a nil
    [c.lock] is a nil dereference. *)
Definition Close (release destroy : option error) (c : Consul) (w : world)
    : ret * Consul * world :=
  match lock c with
  | None => (Panic "nil pointer dereference", c, w)
  | Some lk =>
      let after_release :=
        if locked c then
          let w := infof (MsgRelease (Session lk)) w in
          let w := send (ReqRelease lk) w in
          (w, release)
        else (w, None) in
      match after_release with
      | (w, Some err) => (Failed err, c, w)
      | (w, None) =>
          let w := infof (MsgDestroy (Session lk)) w in
          let w := send (ReqSessionDestroy (Session lk)) w in
          match destroy with
          | Some err => (Failed err, c, w)
          | None =>
              match stopCh c with
              | ChClosed => (Panic "close of closed channel", c, w)
              | ChOpen =>
                  (Done,
                   mkConsul (lock c) (locked c) ChClosed (interval c) (cc c),
                   w)
              end
          end
      end
  end.

(** [consul.Config] *)
Record Config := mkConfig {
  Address : string;
  Scheme : string;
  Datacenter : string;
  Interval : Z
}.

(** One round of the lock loop of [startSession]: what the blocking get of
    the lock key and the acquire answer. *)
Inductive round :=
| GetFails (e : error)
| AcquireFails (e : error)
| AcquireSays (ok : bool).

Fixpoint lock_loop (lk : KVPair) (rounds : list round) (c : Consul)
    (w : world) : ret * Consul * world :=
  match rounds with
  | [] => (Blocked, c, w)
  | r :: rounds =>
      let get := match r with GetFails e => Some e | _ => None end in
      let '(w, _, err) := kv_Get get lockKey w in
      match err with
      | Some e => (Failed e, c, w)
      | None =>
          let w := send (ReqAcquire lk) w in
          match r with
          | GetFails e | AcquireFails e => (Failed e, c, w)
          | AcquireSays false => lock_loop lk rounds c w
          | AcquireSays true =>
              let w := infof (MsgAcquired (Session lk)) w in
              (Done,
               mkConsul (lock c) true (stopCh c) (interval c) (cc c),
               w)
          end
      end
  end.

(** [startSession] creates new consul session and holds an unique lock.
    The goroutine that renews the session until [stopCh] is closed runs
    beside the caller and is not part of this function's result. *)
Definition startSession (create : string * option error)
    (rounds : list round) (c : Consul) (w : world)
    : ret * Consul * world :=
  let w := send ReqSessionCreate w in
  match create with
  | (_, Some err) => (Failed err, c, w)
  | (sess, None) =>
      let w := infof (MsgCreated sess) w in
      let w := infof (MsgLock sess) w in
      let lk := mkKVPair lockKey [Byte.x6f; Byte.x6b] sess in
      let c := mkConsul (Some lk) (locked c) (stopCh c) (interval c) (cc c) in
      lock_loop lk rounds c w
  end.

(** [New] creates new consul client.  The error of [api.NewClient] is
    overwritten by the leader query, which then runs on a nil client. *)
Definition New (cfg : option Config) (client leader : option error)
    (create : string * option error) (rounds : list round) (w : world)
    : ret * option Consul * world :=
  match cfg with
  | None => (Panic "cfg is nil", None, w)
  | Some cfg =>
      match client with
      | Some _ => (Panic "nil pointer dereference", None, w)
      | None =>
          let w := send ReqLeader w in
          match leader with
          | Some err => (Failed err, None, w)
          | None =>
              let c := mkConsul None false ChOpen (Interval cfg) nil_slice in
              match startSession create rounds c w with
              | (Done, c, w) => (Done, Some c, w)
              | (r, _, w) => (r, None, w)
              end
          end
      end
  end.

End Watcher.

(** ** The other variant of consul.go

    The repository holds a second variant of the file: it creates the session
    in [New] and takes the lock in [Lock], released by [Unlock].  Its [load],
    [dump], [Next], [pos] and [del] are the same text as above, with the keys
    ["consul-slack-lock"] and ["consul-slack-state"]. *)
Module Variant.

Definition lockKey : string := "consul-slack-lock".
Definition stateKey : string := "consul-slack-state".

Record Consul := mkConsul {
  lock : KVPair;
  lockCh : option chan;
  stopCh : chan;
  interval : Z;
  cc : slice
}.

(** [New] creates new consul client. *)
Definition New (cfg : option Config) (client : option error)
    (create : string * option error) (w : world)
    : ret * option Consul * world :=
  match cfg with
  | None => (Panic "cfg is nil", None, w)
  | Some cfg =>
      match client with
      | Some err => (Failed err, None, w)
      | None =>
          let w := send ReqSessionCreate w in
          match create with
          | (_, Some err) => (Failed err, None, w)
          | (sessionID, None) =>
              (Done,
               Some (mkConsul
                       (mkKVPair lockKey [Byte.x6f; Byte.x6b] sessionID)
                       None ChOpen (Interval cfg) nil_slice),
               w)
          end
      end
  end.

(** [Close] shuts down Next() function. *)
Definition Close (c : Consul) (w : world) : ret * Consul * world :=
  match stopCh c with
  | ChClosed => (Panic "close of closed channel", c, w)
  | ChOpen => (Done, mkConsul (lock c) (lockCh c) ChClosed (interval c) (cc c), w)
  end.

(** The acquire loop of [Lock]: one answer of the service per round. *)
Fixpoint acquire_loop (answers : list (bool * option error)) (c : Consul)
    (w : world) : ret * world :=
  match answers with
  | [] => (Blocked, w)
  | (ok, err) :: answers =>
      let w := send (ReqAcquire (lock c)) w in
      match err with
      | Some e => (Failed e, w)
      | None =>
          if ok then (Done, infof (MsgAcquired (Session (lock c))) w)
          else acquire_loop answers c w
      end
  end.

(** [Lock] blocks until lock is acquired.  The goroutine that renews the
    session until [lockCh] is closed runs beside the caller. *)
Definition Lock (answers : list (bool * option error)) (c : Consul)
    (w : world) : ret * Consul * world :=
  match lockCh c with
  | Some _ => (Panic "already locked", c, w)
  | None =>
      let w := infof (MsgLock (Session (lock c))) w in
      match acquire_loop answers c w with
      | (Done, w) =>
          (Done,
           mkConsul (lock c) (Some ChOpen) (stopCh c) (interval c) (cc c),
           w)
      | (r, w) => (r, c, w)
      end
  end.

(** [Unlock] releases previously created lock. *)
Definition Unlock (release : option error) (c : Consul) (w : world)
    : ret * Consul * world :=
  match lockCh c with
  | None => (Panic "not locked", c, w)
  | Some ChClosed => (Panic "close of closed channel", c, w)
  | Some ChOpen =>
      let c := mkConsul (lock c) (Some ChClosed) (stopCh c) (interval c)
                 (cc c) in
      let w := infof (MsgRelease (Session (lock c))) w in
      let w := send (ReqRelease (lock c)) w in
      (match release with Some e => Failed e | None => Done end, c, w)
  end.

End Variant.

(** ** The goroutines that renew the session

    Each runs beside its watcher, from [startSession] in consul.go and from
    [Lock] in the other variant: a loop on a [select] between the channel that
    stops it and a timer, after which it renews the session.  What wakes the
    loop is given; what it does is the renewals it sends and, in consul.go,
    the line it prints when one fails. *)
Inductive renew_wake :=
| RenewStop
| RenewAfter (err : option error).

Inductive renew_act :=
| ActRenew (sess : string)
| ActRenewError (e : error).

(** The goroutine of [startSession]: it ends on [stopCh], and on the first
    renewal that fails, which it reports. *)
Fixpoint renew_loop (sess : string) (wakes : list renew_wake)
    : ret * list renew_act :=
  match wakes with
  | [] => (Blocked, [])
  | RenewStop :: _ => (Done, [])
  | RenewAfter err :: wakes =>
      match err with
      | Some e => (Done, [ActRenew sess; ActRenewError e])
      | None =>
          let '(r, acts) := renew_loop sess wakes in
          (r, ActRenew sess :: acts)
      end
  end.

(** The goroutine of [Lock] in the other variant: it ends on [lockCh], and
    silently on the first renewal that fails. *)
Fixpoint variant_renew_loop (sess : string) (wakes : list renew_wake)
    : ret * list renew_act :=
  match wakes with
  | [] => (Blocked, [])
  | RenewStop :: _ => (Done, [])
  | RenewAfter err :: wakes =>
      match err with
      | Some e => (Done, [ActRenew sess])
      | None =>
          let '(r, acts) := variant_renew_loop sess wakes in
          (r, ActRenew sess :: acts)
      end
  end.

(** ** The loops of a tick on the elements

    What the passing loop does to the window of the array it ranges over,
    and what the critical loop does to the elements of the snapshot; the
    code is shown below to compute exactly this. *)

Definition shift (W : list HealthCheck) (m i : nat) : list HealthCheck :=
  take i W ++ take (m - (i + 1)) (drop (i + 1) W) ++ drop (m - 1) W.

Definition win_del (W : list HealthCheck) (m : nat) (hc : HealthCheck)
    : list HealthCheck * nat :=
  let i := pos (take m W) hc in
  if decide (i = (-1)%Z) then (W, m) else (shift W m (Z.to_nat i), m - 1).

Fixpoint win_passing (hc : list HealthCheck) (ks : list nat)
    (W : list HealthCheck) (m : nat) : list HealthCheck * nat * list HealthCheck :=
  match ks with
  | [] => (W, m, [])
  | k :: ks =>
      match W !! k with
      | None => (W, m, [])
      | Some check =>
          if decide (pos hc check ≠ (-1)%Z) then win_passing hc ks W m
          else
            let '(W1, m1) := win_del W m check in
            let '(W', m', pc) := win_passing hc ks W1 m1 in
            (W', m', check :: pc)
      end
  end.

Definition passing_msg (check : HealthCheck) : msg :=
  MsgPassing (Node check) (ServiceName check).

Definition failing_msg (check : HealthCheck) : msg :=
  MsgFailing (Node check) (ServiceName check).

(** The service identifiers of a set of checks. *)
Definition ids (hcs : list HealthCheck) : list string := ServiceID <$> hcs.

(** The snapshot in memory is the one under the state key, and writing it
    was the last request sent. *)
Definition persisted (json_Marshal : list HealthCheck → bytes + error)
    (c : Consul) (w : world) : Prop :=
  ∃ b, json_Marshal (elems (w_mem w) (cc c)) = inl b ∧
       w_kv w !! stateKey = Some b ∧
       last (w_sent w) = Some (ReqPut stateKey b).

(** A slice of length [m] on the array [P ++ W ++ Q] at [l], its first
    element being the first of [W]. *)
Definition on_window (l : loc) (P Q : list HealthCheck) (c : nat)
    (h : heap) (W : list HealthCheck) (m : nat) (s : slice) : Prop :=
  h !! l = Some (P ++ W ++ Q) ∧ s = Slice (Some l) (length P) m c ∧
  m ≤ length W ∧ length W ≤ c.

Fixpoint critical_on (hc cur : list HealthCheck)
    : list HealthCheck * list HealthCheck :=
  match hc with
  | [] => (cur, [])
  | check :: hc =>
      if decide (pos cur check ≠ (-1)%Z) then critical_on hc cur
      else
        let '(cur', cc) := critical_on hc (cur ++ [check]) in
        (cur', check :: cc)
  end.

(** The snapshot a tick leaves and its results [pc] and [cc], from the
    elements [A] of the snapshot it starts with. *)
Definition tick_on (hc A : list HealthCheck)
    : list HealthCheck * list HealthCheck * list HealthCheck :=
  let '(W, m, pc) := win_passing hc (seq 0 (length A)) A (length A) in
  let '(cur, cc) := critical_on hc (take m W) in
  (cur, pc, cc).

(** Cell [t] of the window after a deletion at [i] is the former cell
    [shift_idx m i t]. *)
Definition shift_idx (m i t : nat) : nat :=
  if decide (t < i) then t else if decide (t < m - 1) then t + 1 else t.

Record tracks (A W : list HealthCheck) (m : nat) (g : nat → nat) : Prop := {
  tr_len : length W = length A;
  tr_live : m ≤ length A;
  tr_at : ∀ t, t < length A → W !! t = A !! g t;
  tr_in : ∀ t, t < length A → g t < length A;
  tr_mono : ∀ t t', t ≤ t' → g t ≤ g t';
  tr_strict : ∀ t t', t < t' → t' < m → g t < g t'
}.

(** ** Test data *)

Definition svc (id : string) : HealthCheck :=
  mkHealthCheck "node1" id id "critical" "" "".

(** The runtime's growth of small slices: doubling. *)
Definition double (c n : nat) : nat := 2 * c.

(** A stand-in for [encoding/json]: the identifiers, each ended by a NUL
    byte; bytes after the last NUL do not decode. *)
Definition fake_Marshal (xs : list HealthCheck) : bytes + error :=
  inl (xs ≫= λ x, String.list_byte_of_string (ServiceID x) ++ [Byte.x00]).

Fixpoint fake_decode (acc : bytes) (b : bytes) : option (list HealthCheck) :=
  match b with
  | [] => match acc with [] => Some [] | _ => None end
  | x :: b =>
      if Byte.eqb x Byte.x00
      then (svc (String.string_of_list_byte (rev acc)) ::.) <$> fake_decode [] b
      else fake_decode (x :: acc) b
  end.

Definition fake_Unmarshal (b : bytes) : list HealthCheck * option error :=
  match fake_decode [] b with
  | Some xs => (xs, None)
  | None => ([], Some "unexpected end of JSON input")
  end.

(** A watcher that holds the lock and has not loaded its snapshot yet, and
    the world it starts in. *)
Definition consul0 : Consul :=
  mkConsul (Some (mkKVPair lockKey [Byte.x6f; Byte.x6b] "session-1")) true
    ChOpen 1000 nil_slice.

Definition world0 : world := World [] ∅ [] [].

(** A watcher of the other variant, as its [New] makes it. *)
Definition variant0 : Variant.Consul :=
  Variant.mkConsul (mkKVPair Variant.lockKey [Byte.x6f; Byte.x6b] "session-1")
    None ChOpen 1000 nil_slice.

(** A world whose state key holds bytes that do not decode. *)
Definition world_corrupt : world :=
  World [] {[ stateKey := [Byte.x61] ]} [] [].

(** A snapshot of three failing services, on an array of its own. *)
Definition heap3 : heap := [[svc "a"; svc "b"; svc "c"]].
Definition snap3 : slice := Slice (Some 0) 0 3 3.

(** * Properties *)

(** ** [pos] *)

Lemma pos_from_spec (i : Z) (hcs : list HealthCheck) (hc : HealthCheck) :
  match list_find (λ c, ServiceID c = ServiceID hc) hcs with
  | Some (k, _) => pos_from i hcs hc = (i + Z.of_nat k)%Z
  | None => pos_from i hcs hc = (-1)%Z
  end.
Proof.
  revert i. induction hcs as [|c rest IH]; intros i; simpl; [done|].
  destruct (String.eqb_spec (ServiceID c) (ServiceID hc)) as [E|E].
  - rewrite decide_True by done. simpl. lia.
  - rewrite decide_False by done. specialize (IH (i + 1)%Z).
    destruct (list_find _ rest) as [[k x]|]; simpl; lia.
Qed.

Lemma pos_None (hcs : list HealthCheck) (hc : HealthCheck) :
  pos hcs hc = (-1)%Z ↔ ServiceID hc ∉ ServiceID <$> hcs.
Proof.
  unfold pos. pose proof (pos_from_spec 0%Z hcs hc) as H.
  destruct (list_find _ hcs) as [[k x]|] eqn:E.
  - apply list_find_Some in E as (Hk & Hx & _). split; [lia|].
    intros Hn. exfalso. apply Hn. rewrite <- Hx.
    apply list_elem_of_fmap. exists x. split; [done|].
    by eapply list_elem_of_lookup_2.
  - split; [|done]. intros _ Hin.
    apply list_elem_of_fmap in Hin as (y & Hy & Hin).
    rewrite list_find_None, Forall_forall in E. by apply (E y).
Qed.

Lemma pos_Some (hcs : list HealthCheck) (hc : HealthCheck) :
  pos hcs hc ≠ (-1)%Z →
  (0 ≤ pos hcs hc)%Z ∧ Z.to_nat (pos hcs hc) < length hcs.
Proof.
  unfold pos. pose proof (pos_from_spec 0%Z hcs hc) as H.
  destruct (list_find _ hcs) as [[k x]|] eqn:E; [|done].
  apply list_find_Some in E as (Hk & _). apply lookup_lt_Some in Hk. lia.
Qed.

Lemma shift_length W m i :
  i < m → m ≤ length W → length (shift W m i) = length W.
Proof.
  intros. unfold shift.
  rewrite !length_app, !length_take, !length_drop. lia.
Qed.

Lemma shift_lookup W m i t :
  i < m → m ≤ length W →
  shift W m i !! t =
  W !! (if decide (t < i) then t
        else if decide (t < m - 1) then t + 1 else t).
Proof.
  intros Hi Hm. unfold shift.
  assert (length (take i W) = i) as L1 by (rewrite length_take; lia).
  assert (length (take (m - (i + 1)) (drop (i + 1) W)) = (m - (i + 1)))
    as L2 by (rewrite length_take, length_drop; lia).
  destruct (decide (t < i)).
  - rewrite lookup_app_l by lia. by rewrite lookup_take_lt.
  - rewrite lookup_app_r by lia. rewrite L1.
    destruct (decide (t < m - 1)).
    + rewrite lookup_app_l by lia. rewrite lookup_take_lt by lia.
      rewrite lookup_drop. f_equal. lia.
    + rewrite lookup_app_r by lia. rewrite L2, lookup_drop. f_equal. lia.
Qed.

Lemma win_del_length W m hc :
  (m ≤ length W) →
  length (win_del W m hc).1 = length W ∧ ((win_del W m hc).2 ≤ m).
Proof.
  intros Hm. unfold win_del. case_decide as E; simpl; [lia|].
  apply pos_Some in E as [_ E]. rewrite length_take in E.
  split; [apply shift_length|]; lia.
Qed.

Lemma list_alter_lookup {A} (f : A → A) (l : list A) (i : nat) (x : A) :
  l !! i = Some x → alter f i l = <[i := f x]> l.
Proof.
  intros H. apply list_eq. intros j.
  destruct (decide (i = j)) as [<-|Hne].
  - rewrite list_lookup_alter_eq, H. simpl.
    rewrite list_lookup_insert_eq; [done|]. by eapply lookup_lt_Some.
  - by rewrite list_lookup_alter_ne, list_lookup_insert_ne.
Qed.

Section Window.
Variable growslice : nat → nat → nat.
Variables (l : loc) (P Q : list HealthCheck) (c : nat).

Lemma on_window_elems h W m s :
  on_window l P Q c h W m s → elems h s = take m W.
Proof.
  intros (Hl & -> & Hm & Hc). unfold elems, backing. simpl. rewrite Hl. simpl.
  rewrite drop_app_length. by rewrite take_app_le.
Qed.

Lemma on_window_index h W m s n k :
  on_window l P Q c h W m s → (k < n) → (n ≤ length W) →
  index h (Slice (Some l) (length P) n c) k = W !! k.
Proof.
  intros (Hl & -> & Hm & Hc) Hk Hn. unfold index, backing. simpl.
  rewrite decide_True by done. rewrite Hl. simpl.
  rewrite lookup_app_r by lia.
  replace (length P + k - length P) with k by lia.
  rewrite lookup_app_l by lia. done.
Qed.

Lemma del_window h W m s hc :
  on_window l P Q c h W m s →
  ∃ h' s', del growslice h s hc = Some (h', s') ∧
    on_window l P Q c h' (win_del W m hc).1
      (win_del W m hc).2 s' ∧
    h' = <[l := P ++ (win_del W m hc).1 ++ Q]> h.
Proof.
  intros Hw. pose proof Hw as (Hl & Hs & Hm & Hc).
  unfold del, win_del. rewrite (on_window_elems _ _ _ _ Hw).
  case_decide as E; simpl.
  - exists h, s. split; [done|]. split; [done|].
    symmetry. by apply list_insert_id.
  - apply pos_Some in E as [E0 E]. rewrite length_take in E.
    set (i := Z.to_nat (pos (take m W) hc)) in *.
    subst s. unfold slice_to, slice_from. simpl.
    rewrite decide_True by lia. simpl. rewrite decide_True by lia. simpl.
    set (xs := elems h _).
    assert (xs = take (m - (i + 1)) (drop (i + 1) W)) as Hxs.
    { unfold xs, elems, backing. simpl. rewrite Hl. simpl.
      rewrite <- drop_drop, drop_app_length.
      rewrite drop_app_le by lia. rewrite take_app_le; [done|].
      rewrite length_drop. lia. }
    assert (length xs = (m - (i + 1))) as Lxs.
    { rewrite Hxs, length_take, length_drop. lia. }
    unfold append. simpl. rewrite decide_True by lia.
    eexists _, _. split; [done|].
    assert (store_at xs (length P + i) (P ++ W ++ Q) = P ++ shift W m i ++ Q)
      as Hst.
    { unfold store_at, shift.
      rewrite take_app_add, take_app_le by lia.
      rewrite drop_app_ge by lia.
      replace (length P + i + length xs - length P)
        with (m - 1) by lia.
      rewrite drop_app_le by lia. rewrite Hxs.
      by rewrite <- !app_assoc. }
    rewrite (list_alter_lookup _ _ _ _ Hl), Hst.
    split; [|done]. split; [|split; [f_equal; lia|]].
    + apply list_lookup_insert_eq. by eapply lookup_lt_Some.
    + rewrite shift_length by lia. lia.
Qed.

Lemma range_passing_window hc n ks : ∀ W m st,
  on_window l P Q c (mem st) W m (snapshot st) → length W = n →
  Forall (λ k, k < n) ks →
  ∃ st', range_passing growslice hc (Slice (Some l) (length P) n c) ks st
           = Some st' ∧
    let '(W', m', pc) := win_passing hc ks W m in
    on_window l P Q c (mem st') W' m' (snapshot st') ∧ length W' = n ∧
    (m' ≤ m) ∧
    mem st' = <[l := P ++ W' ++ Q]> (mem st) ∧
    passing st' = passing st ++ pc ∧ critical st' = critical st ∧
    stderr st' = stderr st ++ (passing_msg <$> pc).
Proof.
  induction ks as [|k ks IH]; intros W m st Hw Hn Hks; simpl.
  - exists st. split; [done|]. split; [done|]. split; [done|].
    split; [lia|]. rewrite !app_nil_r. split; [|done].
    symmetry. apply list_insert_id. apply Hw.
  - apply Forall_cons in Hks as [Hk Hks].
    rewrite (on_window_index _ W m (snapshot st) n k Hw Hk) by lia.
    destruct (W !! k) as [check|] eqn:Ek;
      [|apply lookup_ge_None in Ek; lia].
    simpl. case_decide as Ep.
    + by apply IH.
    + destruct (del_window _ _ _ _ check Hw) as (h' & s' & -> & Hw' & Hh').
      simpl. pose proof (win_del_length W m check) as [HL Hm'];
        [apply Hw|].
      destruct (win_del W m check) as [W1 m1]; simpl in *.
      set (st1 := TickState h' s' _ _ _).
      destruct (IH W1 m1 st1) as (st' & -> & Hres); [done|lia|done|].
      exists st'. split; [done|].
      destruct (win_passing hc ks W1 m1) as [[W' m'] pc].
      destruct Hres as (? & ? & ? & Hmem & Hp & Hc & Hs).
      subst st1. simpl in *.
      split; [done|]. split; [done|]. split; [lia|].
      split; [|split; [|split]].
      * rewrite Hmem. simpl. rewrite Hh'. apply list_insert_insert_eq.
      * rewrite Hp. simpl. by rewrite <- app_assoc.
      * by rewrite Hc.
      * rewrite Hs. simpl. by rewrite <- app_assoc.
Qed.

End Window.

(** ** [append], on the elements *)

Lemma wf_Some h s l :
  wf h s = true → base s = Some l →
  ∃ a, h !! l = Some a ∧ (off s + len s ≤ length a) ∧ (len s ≤ cap s).
Proof.
  unfold wf. intros H E. rewrite E in H. apply andb_true_iff in H as [H1 H2].
  apply bool_decide_eq_true in H1.
  destruct (h !! l) as [a|]; [|done].
  apply bool_decide_eq_true in H2. eauto.
Qed.

Lemma wf_None h s :
  wf h s = true → base s = None → len s = 0 ∧ cap s = 0.
Proof.
  unfold wf. intros H E. rewrite E in H. apply andb_true_iff in H as [H1 H2].
  apply bool_decide_eq_true in H1, H2. lia.
Qed.

Lemma wf_length h s : wf h s = true → length (elems h s) = len s.
Proof.
  intros H. unfold elems, backing. destruct (base s) as [l|] eqn:E.
  - destruct (wf_Some _ _ _ H E) as (a & Ha & ? & ?). simpl. rewrite Ha. simpl.
    rewrite length_take, length_drop. lia.
  - apply wf_None in H as [-> _]; done.
Qed.

Lemma alloc_spec h xs c :
  wf (alloc h xs c).1 (alloc h xs c).2 = true ∧
  elems (alloc h xs c).1 (alloc h xs c).2 = xs ∧
  is_nil (alloc h xs c).2 = false.
Proof.
  assert ((h ++ [xs]) !! length h = Some xs) as Hl
    by (by apply list_lookup_middle).
  unfold alloc, wf, elems, backing.
  cbn [fst snd base off len cap is_nil mbind option_bind]. rewrite Hl.
  simpl. rewrite drop_0, take_ge by lia.
  split_and!; [|done..]. apply andb_true_iff.
  split; apply bool_decide_eq_true; lia.
Qed.

Lemma append_spec growslice h s xs :
  wf h s = true →
  wf (append growslice h s xs).1 (append growslice h s xs).2 = true ∧
  elems (append growslice h s xs).1 (append growslice h s xs).2
    = elems h s ++ xs ∧
  (is_nil s = false → is_nil (append growslice h s xs).2 = false).
Proof.
  intros Hwf. unfold append. case_decide as Hfit;
    [|by destruct (alloc_spec h (elems h s ++ xs)
                     (growslice (cap s) (len s + length xs))) as (? & ? & ?)].
  destruct (base s) as [l|] eqn:E.
  - destruct (wf_Some _ _ _ Hwf E) as (a & Ha & Hlen & Hcap).
    simpl. rewrite (list_alter_lookup _ _ _ _ Ha).
    assert (l < length h) by (by eapply lookup_lt_Some).
    unfold wf, elems, backing, is_nil. simpl. rewrite E. simpl.
    rewrite Ha. simpl. rewrite list_lookup_insert_eq by done. simpl.
    unfold store_at.
    assert (drop (off s) (take (off s + len s) a ++ xs
              ++ drop (off s + len s + length xs) a)
            = take (len s) (drop (off s) a) ++ xs
              ++ drop (off s + len s + length xs) a) as ->.
    { rewrite drop_app_le by (rewrite length_take; lia).
      by rewrite take_drop_commute. }
    split_and!; [|by rewrite app_assoc, take_app_length';
                    [|rewrite length_app, length_take, length_drop; lia]|done].
    rewrite !length_app, length_take, length_drop.
    apply andb_true_iff. split; apply bool_decide_eq_true; lia.
  - apply wf_None in Hwf as [H0 Hc]; [|done].
    assert (xs = []) as -> by (destruct xs; [done|simpl in *; lia]).
    unfold wf, elems, backing, is_nil. simpl. rewrite E, H0, Hc. simpl.
    done.
Qed.

Lemma critical_loop_spec growslice hc : ∀ st,
  wf (mem st) (snapshot st) = true →
  let st' := critical_loop growslice hc st in
  let r := critical_on hc (elems (mem st) (snapshot st)) in
  wf (mem st') (snapshot st') = true ∧
  elems (mem st') (snapshot st') = r.1 ∧
  critical st' = critical st ++ r.2 ∧
  passing st' = passing st ∧
  stderr st' = stderr st ++ (failing_msg <$> r.2) ∧
  (is_nil (snapshot st) = false → is_nil (snapshot st') = false).
Proof.
  induction hc as [|check hc IH]; intros st Hwf; simpl.
  - rewrite !app_nil_r. done.
  - case_decide as E; [by apply IH|].
    destruct (append_spec growslice (mem st) (snapshot st) [check] Hwf)
      as (Hwf' & Hel & Hnil).
    destruct (append growslice (mem st) (snapshot st) [check]) as [h s].
    simpl in *.
    set (st1 := TickState h s _ _ _).
    destruct (IH st1 Hwf') as (? & He & Hc & Hp & Hs & Hn).
    subst st1. simpl in *. rewrite Hel in He, Hc, Hs.
    destruct (critical_on hc _) as [cur' cc]. simpl in *.
    rewrite Hc, Hs, <- !app_assoc. split_and!; auto.
Qed.

Lemma on_window_wf l P Q c h W m s :
  on_window l P Q c h W m s → wf h s = true ∧ is_nil s = false.
Proof.
  intros (Hl & -> & Hm & Hc). unfold wf. simpl. rewrite Hl.
  split; [|done]. apply andb_true_iff.
  split; apply bool_decide_eq_true; [lia|]. rewrite !length_app. lia.
Qed.

Lemma passing_loop_spec growslice hc st :
  wf (mem st) (snapshot st) = true →
  ∃ st', passing_loop growslice hc st = Some st' ∧
    wf (mem st') (snapshot st') = true ∧
    is_nil (snapshot st') = is_nil (snapshot st) ∧
    let A := elems (mem st) (snapshot st) in
    let '(W, m, pc) := win_passing hc (seq 0 (length A)) A (length A) in
    elems (mem st') (snapshot st') = take m W ∧
    passing st' = passing st ++ pc ∧ critical st' = critical st ∧
    stderr st' = stderr st ++ (passing_msg <$> pc).
Proof.
  intros Hwf. unfold passing_loop. rewrite (wf_length _ _ Hwf).
  destruct st as [h s pc0 cc0 log]. simpl in *.
  destruct s as [[l|] o n c]; simpl in *.
  - destruct (wf_Some _ _ l Hwf) as (a & Ha & Hlen & Hcap); [done|].
    simpl in *.
    set (P := take o a). set (W := take n (drop o a)).
    set (Q := drop (o + n) a).
    assert (a = P ++ W ++ Q) as Hd.
    { unfold P, W, Q. rewrite <- drop_drop, take_drop.
      by rewrite take_drop. }
    assert (length P = o) as HP by (unfold P; rewrite length_take; lia).
    assert (length W = n) as HW
      by (unfold W; rewrite length_take, length_drop; lia).
    assert (elems h (Slice (Some l) o n c) = W) as HA.
    { unfold elems, backing. simpl. by rewrite Ha. }
    set (st := TickState h (Slice (Some l) o n c) pc0 cc0 log).
    assert (on_window l P Q c (mem st) W n (snapshot st)) as Hw.
    { unfold on_window. simpl. rewrite <- Hd, HP, HW. done. }
    destruct (range_passing_window growslice l P Q c hc n (seq 0 n) W n st Hw HW)
      as (st' & Hrun & Hres).
    { apply Forall_seq. lia. }
    rewrite HP in Hrun. exists st'. split; [done|].
    rewrite HA.
    destruct (win_passing hc (seq 0 n) W n) as [[W' m'] pc].
    destruct Hres as (Hw' & _ & _ & _ & Hp & Hc & Hs).
    destruct (on_window_wf _ _ _ _ _ _ _ _ Hw') as [? ?].
    rewrite (on_window_elems _ _ _ _ _ _ _ _ Hw'). done.
  - destruct (wf_None _ _ Hwf) as [Hn _]; [done|]. simpl in Hn. subst n.
    eexists. split; [done|]. simpl. rewrite !app_nil_r. done.
Qed.

(** The tick of the code never panics on a well-formed snapshot, and what it
    leaves is what [tick_on] computes from the elements alone. *)
Lemma tick_spec growslice hc st :
  wf (mem st) (snapshot st) = true →
  ∃ st', tick growslice hc st = Some st' ∧
    wf (mem st') (snapshot st') = true ∧
    (is_nil (snapshot st) = false → is_nil (snapshot st') = false) ∧
    let '(cur, pc, cc) := tick_on hc (elems (mem st) (snapshot st)) in
    elems (mem st') (snapshot st') = cur ∧
    passing st' = passing st ++ pc ∧
    critical st' = critical st ++ cc ∧
    stderr st' = stderr st ++ (passing_msg <$> pc) ++ (failing_msg <$> cc).
Proof.
  intros Hwf. unfold tick, tick_on.
  destruct (passing_loop_spec growslice hc st Hwf)
    as (st1 & -> & Hwf1 & Hnil1 & Hres).
  simpl. eexists. split; [done|]. cbv zeta in Hres.
  destruct (win_passing hc _ _ _) as [[W m] pc].
  destruct Hres as (He & Hp & Hc & Hs).
  destruct (critical_loop_spec growslice hc st1 Hwf1)
    as (Hwf2 & He2 & Hc2 & Hp2 & Hs2 & Hnil2).
  rewrite He in He2, Hc2, Hs2.
  destruct (critical_on hc (take m W)) as [cur cc]. simpl in *.
  rewrite Hc2, Hp2, Hs2, Hp, Hc, Hs, <- app_assoc.
  split_and!; try done. intros. apply Hnil2. by rewrite Hnil1.
Qed.

(** ** Where the cells of the window come from

    While the passing loop runs, cell [t] of the window holds the check that
    was at [g t] in the snapshot the loop started with: checks only move
    towards the front, and the live part never holds a check twice. *)

Lemma tracks_start A : tracks A A (length A) id.
Proof. split; intros; unfold id; auto with lia. Qed.

Lemma tracks_shift A W m g i :
  tracks A W m g → i < m →
  tracks A (shift W m i) (m - 1) (g ∘ shift_idx m i) ∧
  ∀ t, g t ≤ g (shift_idx m i t).
Proof.
  intros [HL Hm Hat Hin Hmono Hstrict] Hi.
  assert (∀ t t', t ≤ t' → shift_idx m i t ≤ shift_idx m i t') as Hidx
    by (intros; unfold shift_idx; repeat case_decide; lia).
  assert (∀ t, t ≤ shift_idx m i t) as Hge
    by (intros; unfold shift_idx; repeat case_decide; lia).
  split; [split|]; simpl.
  - rewrite shift_length; lia.
  - lia.
  - intros t Ht. rewrite shift_lookup by lia. fold (shift_idx m i t).
    apply Hat. unfold shift_idx. repeat case_decide; lia.
  - intros t Ht. apply Hin. unfold shift_idx. repeat case_decide; lia.
  - intros t t' Ht. apply Hmono, Hidx, Ht.
  - intros t t' Ht Ht'. apply Hstrict;
      unfold shift_idx; repeat case_decide; lia.
  - intros t. apply Hmono, Hge.
Qed.

Lemma tracks_win_del A W m g hc :
  tracks A W m g →
  ∃ g', tracks A (win_del W m hc).1 (win_del W m hc).2 g' ∧
        ∀ t, g t ≤ g' t.
Proof.
  intros Ht. unfold win_del. case_decide as E; simpl.
  - exists g. auto.
  - apply pos_Some in E as [_ E]. rewrite length_take in E.
    exists (g ∘ shift_idx m (Z.to_nat (pos (take m W) hc))).
    apply tracks_shift; [done|lia].
Qed.

Lemma win_passing_tracks A hc : ∀ cnt k W m g,
  tracks A W m g → k + cnt ≤ length A →
  ∃ g' ps,
    tracks A (win_passing hc (seq k cnt) W m).1.1
             (win_passing hc (seq k cnt) W m).1.2 g' ∧
    (∀ t, g t ≤ g' t) ∧
    Forall2 (λ p x, A !! p = Some x) ps (win_passing hc (seq k cnt) W m).2 ∧
    StronglySorted le ps ∧ Forall (λ p, g k ≤ p) ps.
Proof.
  induction cnt as [|cnt IH]; intros k W m g Ht Hk; simpl.
  - exists g, []. split_and!; auto. constructor.
  - destruct (W !! k) as [check|] eqn:Ek.
    2:{ apply lookup_ge_None in Ek. rewrite (tr_len _ _ _ _ Ht) in Ek. lia. }
    case_decide as Ep.
    + destruct (IH (S k) W m g Ht) as (g' & ps & ? & ? & ? & ? & Hlb); [lia|].
      exists g', ps. split_and!; auto.
      eapply Forall_impl; [exact Hlb|]. simpl. intros p Hp.
      pose proof (tr_mono _ _ _ _ Ht k (S k)). lia.
    + destruct (tracks_win_del A W m g check Ht) as (g1 & Ht1 & Hg1).
      destruct (win_del W m check) as [W1 m1]. simpl in *.
      destruct (IH (S k) W1 m1 g1 Ht1) as (g' & ps & ? & Hg' & ? & ? & Hlb);
        [lia|].
      destruct (win_passing hc (seq (S k) cnt) W1 m1) as [[W' m'] pc].
      simpl in *.
      assert (Forall (λ p, g k ≤ p) ps) as Hlb'.
      { eapply Forall_impl; [exact Hlb|]. simpl. intros p Hp.
        pose proof (tr_mono _ _ _ _ Ht k (S k)). pose proof (Hg1 (S k)). lia. }
      exists g', (g k :: ps). split_and!; auto.
      * intros t. pose proof (Hg1 t). pose proof (Hg' t). lia.
      * constructor; [|done]. rewrite <- Ek. symmetry.
        apply (tr_at _ _ _ _ Ht). lia.
      * by constructor.
Qed.

Lemma win_passing_gone hc : ∀ ks W m,
  Forall (λ x, pos hc x = (-1)%Z) (win_passing hc ks W m).2.
Proof.
  induction ks as [|k ks IH]; intros W m; simpl; [constructor|].
  destruct (W !! k) as [check|]; [|constructor].
  case_decide as Ep; [apply IH|].
  destruct (win_del W m check) as [W1 m1]. specialize (IH W1 m1).
  destruct (win_passing hc ks W1 m1) as [[W' m'] pc]. simpl in *.
  constructor; [|done]. destruct (decide (pos hc check = (-1)%Z)); tauto.
Qed.

Lemma tracks_NoDup A W m g :
  tracks A W m g → NoDup (ServiceID <$> A) →
  NoDup (ServiceID <$> take m W).
Proof.
  intros Ht HA. apply NoDup_alt. intros i j x Hi Hj.
  rewrite NoDup_alt in HA.
  assert (∀ t, (ServiceID <$> take m W) !! t = Some x →
               t < m ∧ (ServiceID <$> A) !! g t = Some x) as Hget.
  { intros t E. rewrite list_lookup_fmap in E.
    destruct (take m W !! t) as [y|] eqn:Ey; [|done].
    apply lookup_take_Some in Ey as [Ey Hlt]. split; [done|].
    rewrite list_lookup_fmap, <- (tr_at _ _ _ _ Ht), Ey; [done|].
    pose proof (tr_live _ _ _ _ Ht). lia. }
  destruct (Hget i Hi) as [Hi' Gi]. destruct (Hget j Hj) as [Hj' Gj].
  pose proof (HA _ _ _ Gi Gj) as Heq.
  destruct (Nat.lt_trichotomy i j) as [Hlt|[->|Hlt]]; [|done|].
  - pose proof (tr_strict _ _ _ _ Ht i j Hlt Hj'). lia.
  - pose proof (tr_strict _ _ _ _ Ht j i Hlt Hi'). lia.
Qed.

Lemma critical_on_app hc : ∀ cur,
  (critical_on hc cur).1 = cur ++ (critical_on hc cur).2.
Proof.
  induction hc as [|check hc IH]; intros cur; simpl.
  - by rewrite app_nil_r.
  - case_decide; [apply IH|]. specialize (IH (cur ++ [check])).
    destruct (critical_on hc _) as [cur' cc]. simpl in *.
    by rewrite IH, <- app_assoc.
Qed.

Lemma critical_on_sublist hc : ∀ cur, (critical_on hc cur).2 `sublist_of` hc.
Proof.
  induction hc as [|check hc IH]; intros cur; simpl; [constructor|].
  case_decide; [by apply sublist_cons|]. specialize (IH (cur ++ [check])).
  destruct (critical_on hc _) as [cur' cc]. simpl in *.
  by apply sublist_skip.
Qed.

Lemma critical_on_NoDup hc : ∀ cur,
  NoDup (ServiceID <$> cur) → NoDup (ServiceID <$> (critical_on hc cur).1).
Proof.
  induction hc as [|check hc IH]; intros cur Hnd; simpl; [done|].
  case_decide as E; [by apply IH|].
  assert (pos cur check = (-1)%Z) as E'
    by (destruct (decide (pos cur check = (-1)%Z)); tauto).
  apply pos_None in E'.
  specialize (IH (cur ++ [check])).
  destruct (critical_on hc _) as [cur' cc]. simpl in *. apply IH.
  rewrite fmap_app. apply NoDup_app. split_and!; [done| |].
  - intros x Hx Hin. apply list_elem_of_singleton in Hin. by subst x.
  - apply NoDup_singleton.
Qed.

Lemma critical_on_covers hc : ∀ cur id,
  id ∈ ids cur ∨ id ∈ ids hc → id ∈ ids (critical_on hc cur).1.
Proof.
  unfold ids.
  induction hc as [|check hc IH]; intros cur id; simpl.
  - intros [H|H]; [done|]. by apply not_elem_of_nil in H.
  - rewrite elem_of_cons. case_decide as E.
    + intros [H|[->|H]]; apply IH; auto. left.
      destruct (decide (ServiceID check ∈ ServiceID <$> cur)); [done|].
      exfalso. apply E. by apply pos_None.
    + specialize (IH (cur ++ [check]) id).
      destruct (critical_on hc _) as [cur' cc]. simpl in *.
      rewrite fmap_app, elem_of_app in IH. simpl in IH.
      rewrite list_elem_of_singleton in IH. intros [H|[->|H]]; apply IH; auto.
Qed.

(** ** The diff tick *)

(** What the tick does guarantee about the snapshot it leaves: every check
    of the live set is in it. *)
Lemma tick_covers_live (growslice : nat → nat → nat)
    (hc : list HealthCheck) (h : heap) (s : slice) (log : list msg) :
  wf h s = true →
  ∃ st', tick growslice hc (TickState h s [] [] log) = Some st' ∧
    ∀ id, id ∈ ids hc → id ∈ ids (elems (mem st') (snapshot st')).
Proof.
  intros Hwf.
  destruct (tick_spec growslice hc (TickState h s [] [] log) Hwf)
    as (st' & Hrun & _ & _ & Hres).
  exists st'. split; [done|]. simpl in Hres. unfold tick_on in Hres.
  destruct (win_passing hc _ _ _) as [[W m] pc].
  pose proof (critical_on_covers hc (take m W)) as Hcov.
  destruct (critical_on hc (take m W)) as [cur cc]. simpl in *.
  destruct Hres as (-> & _). auto.
Qed.

(** C1, at a failing input.  The snapshot holds [a], [b] and [c] and no check
    is failing any more: the tick leaves [b] in the snapshot (and reports [c]
    twice), where the live set is empty.  Deleting [a] moves [b] and [c] one
    cell to the front of the array the [range] loop is still reading, so the
    loop never sees [b].  Likewise when only [c] is still failing: the tick
    leaves [b] and [c]. *)
Theorem tick_skips_after_delete (growslice : nat → nat → nat) :
  (∃ st', tick growslice [] (TickState heap3 snap3 [] [] []) = Some st' ∧
     ids (elems (mem st') (snapshot st')) = ["b"] ∧
     ids (passing st') = ["a"; "c"; "c"] ∧
     ids (critical st') = []) ∧
  (∃ st', tick growslice [svc "c"] (TickState heap3 snap3 [] [] [])
            = Some st' ∧
     ids (elems (mem st') (snapshot st')) = ["b"; "c"] ∧
     ids (passing st') = ["a"] ∧
     ids (critical st') = []).
Proof. split; (eexists; split; [reflexivity|]; by vm_compute). Qed.

(** C3: No service identifier is both in the newly-passing and in the
    newly-critical output of a tick: the tick runs to its end on every
    well-formed snapshot, and the identifiers of its two outputs are
    disjoint. *)
Theorem tick_outputs_disjoint (growslice : nat → nat → nat)
    (hc : list HealthCheck) (h : heap) (s : slice) (log : list msg) :
  wf h s = true →
  ∃ st', tick growslice hc (TickState h s [] [] log) = Some st' ∧
    ∀ id, id ∈ ids (passing st') → id ∉ ids (critical st').
Proof.
  intros Hwf.
  destruct (tick_spec growslice hc (TickState h s [] [] log) Hwf)
    as (st' & Hrun & _ & _ & Hres).
  exists st'. split; [done|]. simpl in Hres. unfold tick_on in Hres.
  pose proof (win_passing_gone hc (seq 0 (length (elems h s))) (elems h s)
                (length (elems h s))) as Hgone.
  destruct (win_passing hc _ _ _) as [[W m] pc].
  pose proof (critical_on_sublist hc (take m W)) as Hsub.
  destruct (critical_on hc (take m W)) as [cur cc]. simpl in *.
  destruct Hres as (_ & -> & -> & _).
  intros id Hp Hc. unfold ids in *.
  apply list_elem_of_fmap in Hp as (x & -> & Hx).
  rewrite Forall_forall in Hgone. apply Hgone, pos_None in Hx.
  apply Hx. eapply list_elem_of_fmap in Hc as (y & -> & Hy).
  apply list_elem_of_fmap. exists y. split; [done|].
  by eapply sublist_subseteq.
Qed.

Lemma tick_outputs_disjoint_witness :
  wf heap3 snap3 = true ∧
  ∃ st', tick double [svc "b"; svc "d"] (TickState heap3 snap3 [] [] [])
           = Some st' ∧
    ∀ id, id ∈ ids (passing st') → id ∉ ids (critical st').
Proof.
  split; [reflexivity|]. apply (tick_outputs_disjoint double). reflexivity.
Defined.

(** C10: The tick keeps the identifiers of the snapshot pairwise distinct:
    from a well-formed snapshot with distinct identifiers (and any live set),
    the tick runs to its end and the snapshot it leaves has distinct
    identifiers. *)
Theorem tick_keeps_unique (growslice : nat → nat → nat)
    (hc : list HealthCheck) (h : heap) (s : slice) (log : list msg) :
  wf h s = true →
  NoDup (ids (elems h s)) →
  NoDup (ids hc) →
  ∃ st', tick growslice hc (TickState h s [] [] log) = Some st' ∧
    wf (mem st') (snapshot st') = true ∧
    NoDup (ids (elems (mem st') (snapshot st'))).
Proof.
  intros Hwf HA _.
  destruct (tick_spec growslice hc (TickState h s [] [] log) Hwf)
    as (st' & Hrun & Hwf' & _ & Hres).
  exists st'. split; [done|]. split; [done|].
  simpl in Hres. unfold tick_on in Hres.
  destruct (win_passing_tracks (elems h s) hc (length (elems h s)) 0
              (elems h s) (length (elems h s)) id (tracks_start _))
    as (g' & ps & Ht & _); [lia|].
  destruct (win_passing hc _ _ _) as [[W m] pc]. simpl in Ht.
  pose proof (critical_on_NoDup hc (take m W) (tracks_NoDup _ _ _ _ Ht HA))
    as Hnd.
  destruct (critical_on hc (take m W)) as [cur cc]. simpl in *.
  destruct Hres as (-> & _). done.
Qed.

Lemma tick_keeps_unique_witness :
  ∃ st', tick double [svc "b"; svc "d"] (TickState heap3 snap3 [] [] [])
           = Some st' ∧
    wf (mem st') (snapshot st') = true ∧
    NoDup (ids (elems (mem st') (snapshot st'))).
Proof.
  apply (tick_keeps_unique double); [reflexivity| |];
    apply (bool_decide_unpack _); vm_compute; exact I.
Defined.

(** C4: Within a tick every passing line is printed before every failing
    line; the newly-passing checks come in the order of the snapshot the
    tick started with (each is the element at some index of it, and these
    indices never decrease), the newly-critical checks are a subsequence of
    the live set; and the outputs and the elements of the snapshot left are
    determined by the elements of the snapshot and the live set alone: they
    are the same from any other memory, capacity or growth policy. *)
Theorem tick_emission_order (growslice : nat → nat → nat)
    (hc : list HealthCheck) (h : heap) (s : slice) (log : list msg) :
  wf h s = true →
  ∃ st', tick growslice hc (TickState h s [] [] log) = Some st' ∧
    stderr st' = log ++ (passing_msg <$> passing st')
                     ++ (failing_msg <$> critical st') ∧
    (∃ ps, StronglySorted le ps ∧
           Forall2 (λ p x, elems h s !! p = Some x) ps (passing st')) ∧
    critical st' `sublist_of` hc ∧
    ∀ growslice2 h2 s2 log2,
      wf h2 s2 = true → elems h2 s2 = elems h s →
      ∃ st2, tick growslice2 hc (TickState h2 s2 [] [] log2) = Some st2 ∧
        passing st2 = passing st' ∧ critical st2 = critical st' ∧
        elems (mem st2) (snapshot st2) = elems (mem st') (snapshot st').
Proof.
  intros Hwf.
  destruct (tick_spec growslice hc (TickState h s [] [] log) Hwf)
    as (st' & Hrun & _ & _ & Hres).
  exists st'. split; [done|]. simpl in Hres.
  assert (∀ growslice2 h2 s2 log2,
    wf h2 s2 = true → elems h2 s2 = elems h s →
    ∃ st2, tick growslice2 hc (TickState h2 s2 [] [] log2) = Some st2 ∧
      let '(cur, pc, cc) := tick_on hc (elems h s) in
      passing st2 = pc ∧ critical st2 = cc ∧
      elems (mem st2) (snapshot st2) = cur) as Hdet.
  { intros g2 h2 s2 log2 Hwf2 Hel.
    destruct (tick_spec g2 hc (TickState h2 s2 [] [] log2) Hwf2)
      as (st2 & Hrun2 & _ & _ & Hres2).
    exists st2. split; [done|]. simpl in Hres2. rewrite Hel in Hres2.
    destruct (tick_on hc (elems h s)) as [[cur pc] cc]. tauto. }
  unfold tick_on in *.
  destruct (win_passing_tracks (elems h s) hc (length (elems h s)) 0
              (elems h s) (length (elems h s)) id (tracks_start _))
    as (g' & ps & _ & _ & Hps & Hsorted & _); [lia|].
  destruct (win_passing hc _ _ _) as [[W m] pc].
  pose proof (critical_on_sublist hc (take m W)) as Hsub.
  destruct (critical_on hc (take m W)) as [cur cc]. simpl in *.
  destruct Hres as (Hcur & -> & -> & ->).
  split_and!; [done|by exists ps|done|].
  intros g2 h2 s2 log2 Hwf2 Hel.
  destruct (Hdet g2 h2 s2 log2 Hwf2 Hel) as (st2 & ? & ? & ? & ?).
  exists st2. split_and!; congruence.
Qed.

Lemma tick_emission_order_witness :
  ∃ st', tick double [svc "b"; svc "d"] (TickState heap3 snap3 [] [] [])
           = Some st' ∧
    stderr st' = [] ++ (passing_msg <$> passing st')
                    ++ (failing_msg <$> critical st') ∧
    (∃ ps, StronglySorted le ps ∧
           Forall2 (λ p x, elems heap3 snap3 !! p = Some x) ps (passing st')) ∧
    critical st' `sublist_of` [svc "b"; svc "d"] ∧
    ∀ growslice2 h2 s2 log2,
      wf h2 s2 = true → elems h2 s2 = elems heap3 snap3 →
      ∃ st2, tick growslice2 [svc "b"; svc "d"] (TickState h2 s2 [] [] log2)
               = Some st2 ∧
        passing st2 = passing st' ∧ critical st2 = critical st' ∧
        elems (mem st2) (snapshot st2) = elems (mem st') (snapshot st').
Proof. apply (tick_emission_order double). reflexivity. Defined.

(** ** [load], [dump] and [Next] *)

Section WatcherProps.
Variable growslice : nat → nat → nat.
Variable json_Marshal : list HealthCheck → bytes + error.
Variable json_Unmarshal : bytes → list HealthCheck * option error.

Local Abbreviation load := (load growslice json_Unmarshal).
Local Abbreviation dump := (dump json_Marshal).
Local Abbreviation Next_loop := (Next_loop growslice json_Marshal).
Local Abbreviation Next := (Next growslice json_Marshal json_Unmarshal).

Lemma load_unfold get w :
  load get w =
  match kv_Get get stateKey w with
  | (w, _, Some err) => (w, nil_slice, Some err)
  | (w, kv, None) =>
      let '(h, chs) := alloc (w_mem w) [] 0 in
      match kv with
      | None => (set_mem h w, chs, None)
      | Some value =>
          let '(xs, err) := json_Unmarshal value in
          let '(h, chs) := alloc h xs (growslice 0 (length xs)) in
          (set_mem h w, chs, err)
      end
  end.
Proof. reflexivity. Qed.

Lemma dump_unfold put chs w :
  dump put chs w =
  match json_Marshal (elems (w_mem w) chs) with
  | inr err => (w, Some err)
  | inl b => kv_Put put stateKey b w
  end.
Proof. reflexivity. Qed.

Lemma Next_unfold get ws c w :
  Next get ws c w =
  if is_nil (cc c) then
    let '(w, chs, err) := load get w in
    let c := set_cc chs c in
    match err with
    | Some _ => (Returned [] [] err, c, w)
    | None =>
        let w := infof (MsgInitialState (elems (w_mem w) (cc c))) w in
        Next_loop ws c w [] [] None
    end
  else Next_loop ws c w [] [] None.
Proof. reflexivity. Qed.

Lemma load_wf get w :
  wf (w_mem (load get w).1.1) (load get w).1.2 = true.
Proof.
  rewrite load_unfold. unfold kv_Get. destruct get as [e|]; [done|].
  destruct (w_kv _ !! stateKey) as [v|]; simpl.
  - destruct (json_Unmarshal v) as [xs err]. simpl.
    apply (alloc_spec _ xs).
  - apply (alloc_spec _ []).
Qed.

Lemma dump_mem put chs w : w_mem (dump put chs w).1 = w_mem w.
Proof.
  rewrite dump_unfold. unfold kv_Put. destruct (json_Marshal _); [|done].
  by destruct put.
Qed.

(** [Next] never panics on a well-formed [c.cc], and leaves it well formed:
    the [range] loop over the array [del] writes to stays within it. *)
Lemma Next_loop_wf : ∀ ws c w rcc rpc err,
  wf (w_mem w) (cc c) = true →
  (Next_loop ws c w rcc rpc err).1.1 ≠ Panicked ∧
  wf (w_mem (Next_loop ws c w rcc rpc err).2)
     (cc (Next_loop ws c w rcc rpc err).1.2) = true.
Proof.
  induction ws as [|[|state put] ws IH]; intros c w rcc rpc err Hwf; simpl;
    [done|done|].
  destruct state as [hc|e]; [|done].
  destruct (tick_spec growslice hc
              (TickState (w_mem w) (cc c) rpc rcc (w_stderr w)) Hwf)
    as (st & Hrun & Hwf' & _).
  simpl in Hrun. rewrite Hrun.
  set (w1 := World (mem st) _ _ _).
  pose proof (dump_mem put (snapshot st) w1) as Hm.
  destruct (dump put (snapshot st) w1) as [w2 err2]. simpl in *.
  destruct err2; [simpl; by rewrite Hm|].
  case_decide; [simpl; by rewrite Hm|].
  apply IH. simpl. by rewrite Hm.
Qed.

Lemma Next_wf get ws c w :
  wf (w_mem w) (cc c) = true →
  (Next get ws c w).1.1 ≠ Panicked ∧
  wf (w_mem (Next get ws c w).2) (cc (Next get ws c w).1.2) = true.
Proof.
  intros Hwf. rewrite Next_unfold. destruct (is_nil (cc c)); [|by apply Next_loop_wf].
  pose proof (load_wf get w) as Hl.
  destruct (load get w) as [[w1 chs] err]. simpl in *.
  destruct err; [done|]. by apply Next_loop_wf.
Qed.

(** At the head of its loop [Next] holds no event and no error: what it does
    on more wake-ups after it was left waiting is what the loop does from
    there. *)
Lemma Next_loop_app : ∀ ws1 ws2 c w c1 w1,
  Next_loop ws1 c w [] [] None = (Waiting, c1, w1) →
  Next_loop (ws1 ++ ws2) c w [] [] None = Next_loop ws2 c1 w1 [] [] None.
Proof.
  induction ws1 as [|[|state put] ws1 IH]; intros ws2 c w c1 w1; simpl.
  - by intros [= -> ->].
  - done.
  - destruct state as [hc|e]; [|done].
    destruct (tick growslice hc _) as [st|]; [|done].
    destruct (dump put _ _) as [w2 err2].
    destruct err2; [done|]. case_decide as E; [done|].
    destruct (critical st), (passing st); simpl in E; try (exfalso; lia).
    apply IH.
Qed.

Lemma Next_app get ws1 ws2 c w c1 w1 :
  Next get ws1 c w = (Waiting, c1, w1) →
  Next get (ws1 ++ ws2) c w = Next_loop ws2 c1 w1 [] [] None.
Proof.
  rewrite !Next_unfold. destruct (is_nil (cc c)); [|apply Next_loop_app].
  destruct (load get w) as [[w0 chs] err].
  destruct err; [done|]. apply Next_loop_app.
Qed.


Lemma Next_loop_persisted : ∀ ws c w rcc rpc c' w',
  Next_loop ws c w [] [] None = (Returned rcc rpc None, c', w') →
  rcc ≠ [] ∨ rpc ≠ [] → persisted json_Marshal c' w'.
Proof.
  induction ws as [|[|state put] ws IH]; intros c w rcc rpc c' w'; simpl.
  - done.
  - intros [= <- <- _ _]. tauto.
  - destruct state as [hc|e]; [|done].
    destruct (tick growslice hc _) as [st|]; [|done].
    rewrite dump_unfold. unfold kv_Put. simpl.
    destruct (json_Marshal (elems (mem st) (snapshot st))) as [b|e] eqn:Eb;
      [|done].
    destruct put as [e|]; [done|]. case_decide as E.
    + intros [= <- <- <- <-] _. exists b. simpl. split; [done|].
      split; [apply lookup_insert_eq|]. by rewrite !last_snoc.
    + destruct (critical st), (passing st); simpl in E; try (exfalso; lia).
      apply IH.
Qed.

Lemma Next_loop_nonempty : ∀ ws c w rcc rpc c' w',
  StopCh ∉ ws →
  Next_loop ws c w [] [] None = (Returned rcc rpc None, c', w') →
  rcc ≠ [] ∨ rpc ≠ [].
Proof.
  induction ws as [|[|state put] ws IH]; intros c w rcc rpc c' w' Hstop; simpl.
  - done.
  - exfalso. apply Hstop. by left.
  - destruct state as [hc|e]; [|done].
    destruct (tick growslice hc _) as [st|]; [|done].
    destruct (dump put _ _) as [w2 [e|]]; [done|]. case_decide as E.
    + intros [= <- <- _ _].
      destruct E as [E|E]; [left|right]; intros Hnil; rewrite Hnil in E;
        simpl in E; lia.
    + destruct (critical st), (passing st); simpl in E; try (exfalso; lia).
      apply IH. intros Hin. apply Hstop. by right.
Qed.

(** C2: When [Next] returns a non-empty batch and no error, the snapshot it
    holds has been written under the state key, and this put is the last
    request sent.  A tick that yields no event never makes [Next] return
    without an error: short of the stop signal, a batch returned with a nil
    error is not empty; and when [Next] is waiting and the next tick is
    fetched and saved and yields no event, [Next] goes on with its loop on
    the wake-ups that follow, the saved snapshot in hand. *)
Theorem Next_persists_then_returns (get : option error) (ws : list wakeup)
    (c : Consul) (w : world) (r : outcome) (c' : Consul) (w' : world) :
  wf (w_mem w) (cc c) = true →
  Next get ws c w = (r, c', w') →
  (∀ rcc rpc, r = Returned rcc rpc None → rcc ≠ [] ∨ rpc ≠ [] →
     persisted json_Marshal c' w') ∧
  (∀ rcc rpc, r = Returned rcc rpc None → StopCh ∉ ws →
     rcc ≠ [] ∨ rpc ≠ []) ∧
  (r = Waiting → ∀ hc rest cur b,
     tick_on hc (elems (w_mem w') (cc c')) = (cur, [], []) →
     json_Marshal cur = inl b →
     ∃ c2 w2,
       Next get (ws ++ TimerC (inl hc) None :: rest) c w
         = Next_loop rest c2 w2 [] [] None ∧
       elems (w_mem w2) (cc c2) = cur ∧ persisted json_Marshal c2 w2).
Proof.
  intros Hwf Hrun. split_and!.
  - intros rcc rpc -> Hne. revert Hrun. rewrite Next_unfold.
    destruct (is_nil (cc c)); [|intros; by eapply Next_loop_persisted].
    destruct (load get w) as [[w0 chs] err].
    destruct err; [intros [= <- <- _ _]; tauto|].
    intros; by eapply Next_loop_persisted.
  - intros rcc rpc -> Hstop. revert Hrun. rewrite Next_unfold.
    destruct (is_nil (cc c)); [|intros; by eapply Next_loop_nonempty].
    destruct (load get w) as [[w0 chs] err].
    destruct err; [done|]. intros; by eapply Next_loop_nonempty.
  - intros -> hc rest cur b Htick Hb.
    rewrite (Next_app _ _ _ _ _ _ _ Hrun). simpl.
    pose proof (Next_wf get ws c w Hwf) as [_ Hwf']. rewrite Hrun in Hwf'.
    simpl in Hwf'.
    destruct (tick_spec growslice hc
                (TickState (w_mem w') (cc c') [] [] (w_stderr w')) Hwf')
      as (st & Hst & _ & _ & Hres).
    simpl in Hst, Hres. rewrite Hst, Htick in *.
    destruct Hres as (Hcur & Hp & Hc & _). simpl in Hp, Hc.
    rewrite dump_unfold. unfold kv_Put. simpl. rewrite Hcur, Hb, Hp, Hc. simpl.
    eexists _, _. split; [reflexivity|]. simpl. split; [done|].
    exists b. simpl. rewrite Hcur. split; [done|].
    split; [apply lookup_insert_eq|]. by rewrite !last_snoc.
Qed.

(** C9: When the stop signal wakes a [Next] that is waiting, [Next] returns
    no critical event, no passing event and a nil error, and leaves the
    watcher and the world as they were. *)
Theorem Next_stop_returns_nothing (get : option error) (ws rest : list wakeup)
    (c : Consul) (w : world) (c1 : Consul) (w1 : world) :
  Next get ws c w = (Waiting, c1, w1) →
  Next get (ws ++ StopCh :: rest) c w = (Returned [] [] None, c1, w1).
Proof. intros H. by rewrite (Next_app _ _ _ _ _ _ _ H). Qed.

(** C5: [load] gives an empty set and no error when the state key is not in
    the store; when the key holds bytes that do not decode, [load] returns
    the decoder's error, and a [Next] that starts with this load returns that
    error with no event, printing nothing and leaving the store as it was. *)
Theorem load_missing_or_corrupt (w : world) :
  (w_kv w !! stateKey = None →
     ∃ w' chs, load None w = (w', chs, None) ∧
       elems (w_mem w') chs = [] ∧ is_nil chs = false) ∧
  (∀ v xs e, w_kv w !! stateKey = Some v →
     json_Unmarshal v = (xs, Some e) →
     (∃ w' chs, load None w = (w', chs, Some e)) ∧
     ∀ ws c, is_nil (cc c) = true →
       ∃ c' w', Next None ws c w = (Returned [] [] (Some e), c', w') ∧
         w_kv w' = w_kv w ∧ w_stderr w' = w_stderr w).
Proof.
  split.
  - intros Hk. rewrite load_unfold. unfold kv_Get. simpl. rewrite Hk. simpl.
    eexists _, _. split; [reflexivity|]. split; [|done].
    apply (alloc_spec _ []).
  - intros v xs e Hk Hv.
    assert (∃ w' chs, load None w = (w', chs, Some e) ∧
              w_kv w' = w_kv w ∧ w_stderr w' = w_stderr w) as (w1 & chs & Hl & ? & ?).
    { rewrite load_unfold. unfold kv_Get. simpl. rewrite Hk, Hv. simpl.
      eexists _, _. split; [reflexivity|]. done. }
    split; [by eauto|]. intros ws c Hnil. rewrite Next_unfold.
    rewrite Hnil, Hl. eauto.
Qed.

(** C6: Loading after a successful dump gives back the dumped checks, for
    every set the codec writes and reads back (the empty one too): the same
    elements in the same order, and so the same service identifiers. *)
Theorem load_after_dump (w : world) (chs : slice) (b : bytes) :
  json_Marshal (elems (w_mem w) chs) = inl b →
  json_Unmarshal b = (elems (w_mem w) chs, None) →
  ∃ w1, dump None chs w = (w1, None) ∧
    ∃ w2 chs', load None w1 = (w2, chs', None) ∧
      elems (w_mem w2) chs' = elems (w_mem w) chs ∧
      (∀ id, id ∈ ids (elems (w_mem w2) chs')
             ↔ id ∈ ids (elems (w_mem w) chs)).
Proof.
  intros Hb Hrt. rewrite dump_unfold. unfold kv_Put. rewrite Hb.
  eexists. split; [reflexivity|].
  rewrite load_unfold. unfold kv_Get. simpl. rewrite lookup_insert_eq, Hrt. simpl.
  eexists _, _. split; [reflexivity|].
  assert (∀ (h : heap) xs c, elems (alloc h xs c).1 (alloc h xs c).2 = xs)
    as Hal by (intros; apply alloc_spec).
  unfold set_mem. simpl in *. rewrite Hal. done.
Qed.

End WatcherProps.

Lemma triple_eta {A B C} (x : A * B * C) : x = (x.1.1, x.1.2, x.2).
Proof. by destruct x as [[??]?]. Qed.

Lemma Next_persists_then_returns_witness :
  let run := Next double fake_Marshal fake_Unmarshal None
               [TimerC (inl [svc "a"]) None] consul0 world0 in
  let idle := Next double fake_Marshal fake_Unmarshal None [] consul0 world0 in
  persisted fake_Marshal run.1.2 run.2 ∧
  ([svc "a"] ≠ [] ∨ @nil HealthCheck ≠ []) ∧
  ∃ c2 w2,
    Next double fake_Marshal fake_Unmarshal None
      ([] ++ [TimerC (inl []) None]) consul0 world0
      = Next_loop double fake_Marshal [] c2 w2 [] [] None ∧
    elems (w_mem w2) (cc c2) = [] ∧ persisted fake_Marshal c2 w2.
Proof.
  intros run idle.
  destruct (Next_persists_then_returns double fake_Marshal fake_Unmarshal
              None _ consul0 world0 run.1.1 run.1.2 run.2 eq_refl
              (triple_eta run)) as (Hsaved & Hfull & _).
  destruct (Next_persists_then_returns double fake_Marshal fake_Unmarshal
              None _ consul0 world0 idle.1.1 idle.1.2 idle.2 eq_refl
              (triple_eta idle)) as (_ & _ & Hgo).
  split_and!.
  - apply (Hsaved [svc "a"] [] eq_refl). left. discriminate.
  - apply (Hfull [svc "a"] [] eq_refl).
    apply not_elem_of_cons. split; [discriminate|apply not_elem_of_nil].
  - exact (Hgo eq_refl [] [] [] [] eq_refl eq_refl).
Defined.

Lemma Next_stop_returns_nothing_witness :
  let idle := Next double fake_Marshal fake_Unmarshal None
                [TimerC (inl []) None] consul0 world0 in
  Next double fake_Marshal fake_Unmarshal None
    ([TimerC (inl []) None] ++ StopCh :: []) consul0 world0
  = (Returned [] [] None, idle.1.2, idle.2).
Proof.
  intros idle.
  apply (Next_stop_returns_nothing double fake_Marshal fake_Unmarshal).
  apply (triple_eta idle).
Defined.

Lemma load_missing_or_corrupt_witness :
  (∃ w' chs, load double fake_Unmarshal None world0 = (w', chs, None) ∧
     elems (w_mem w') chs = [] ∧ is_nil chs = false) ∧
  (∃ w' chs, load double fake_Unmarshal None world_corrupt
             = (w', chs, Some "unexpected end of JSON input")) ∧
  ∃ c' w',
    Next double fake_Marshal fake_Unmarshal None
      [TimerC (inl [svc "a"]) None] consul0 world_corrupt
    = (Returned [] [] (Some "unexpected end of JSON input"), c', w') ∧
    w_kv w' = w_kv world_corrupt ∧ w_stderr w' = w_stderr world_corrupt.
Proof.
  split.
  - apply (proj1 (load_missing_or_corrupt double fake_Marshal fake_Unmarshal
                    world0)).
    reflexivity.
  - destruct (proj2 (load_missing_or_corrupt double fake_Marshal
                       fake_Unmarshal world_corrupt)
                [Byte.x61] [] "unexpected end of JSON input"
                eq_refl eq_refl) as [Hl Hn].
    split; [exact Hl|]. apply Hn. reflexivity.
Defined.

Lemma load_after_dump_witness :
  ∃ w1, dump fake_Marshal None snap3 (World heap3 ∅ [] []) = (w1, None) ∧
    ∃ w2 chs', load double fake_Unmarshal None w1 = (w2, chs', None) ∧
      elems (w_mem w2) chs' = [svc "a"; svc "b"; svc "c"] ∧
      (∀ id, id ∈ ids (elems (w_mem w2) chs')
             ↔ id ∈ ids [svc "a"; svc "b"; svc "c"]).
Proof.
  eapply (load_after_dump double fake_Marshal fake_Unmarshal
            (World heap3 ∅ [] []) snap3); reflexivity.
Defined.

(** ** The lock and the stop *)

Lemma lock_loop_locked lk : ∀ rounds c w c' w',
  lock_loop lk rounds c w = (Done, c', w') →
  locked c' = true ∧ lock c' = lock c ∧ stopCh c' = stopCh c.
Proof.
  induction rounds as [|r rounds IH]; intros c w c' w'; simpl; [done|].
  destruct r as [e|e|[]]; simpl; try done.
  - by intros [= <- _].
  - apply IH.
Qed.

(** [New] of consul.go hands out a watcher only once [startSession] has
    acquired the lock: at the public interface [c.locked] holds, and the guard
    of the release in [Close] is never false. *)
Lemma New_locked cfg client leader create rounds w r c w' :
  New cfg client leader create rounds w = (r, Some c, w') →
  r = Done ∧ locked c = true ∧ is_Some (lock c) ∧ stopCh c = ChOpen.
Proof.
  unfold New, startSession. destruct cfg; [|done]. destruct client; [done|].
  destruct leader; [done|]. destruct create as [sess [e|]]; [done|].
  destruct (lock_loop _ _ _ _) as [[[] c1] w1] eqn:E; try done.
  intros [= <- <- _]. apply lock_loop_locked in E as (? & -> & ->). eauto.
Qed.

Lemma Variant_New_not_locked cfg client create w r c w' :
  Variant.New cfg client create w = (r, Some c, w') → Variant.lockCh c = None.
Proof.
  unfold Variant.New. destruct cfg; [|done]. destruct client; [done|].
  destruct create as [sess [e|]]; [done|]. by intros [= _ <- _].
Qed.

Lemma Variant_Lock_lockCh answers c w r c' w' :
  Variant.lockCh c = None →
  Variant.Lock answers c w = (r, c', w') →
  (r = Done ∧ Variant.lockCh c' = Some ChOpen) ∨
  (r ≠ Done ∧ Variant.lockCh c' = None).
Proof.
  intros Hn. unfold Variant.Lock. rewrite Hn.
  destruct (Variant.acquire_loop _ _ _) as [[] w1]; intros [= <- <- _];
    simpl; auto.
Qed.

(** C7: Releasing a lock that is not held fails fast and never succeeds
    silently: unless [lockCh] is an open channel (a [Lock] has acquired and no
    [Unlock] has run since), [Unlock] panics, sends no release and changes
    nothing; while no [Lock] has succeeded ([lockCh] is nil: [New] leaves it
    nil and only a [Lock] that acquired sets it) the panic is "not locked". *)
Theorem Unlock_not_locked (release : option error) (c : Variant.Consul)
    (w : world) :
  Variant.lockCh c ≠ Some ChOpen →
  ∃ reason, Variant.Unlock release c w = (Panic reason, c, w) ∧
    (Variant.lockCh c = None → reason = "not locked").
Proof.
  intros H. unfold Variant.Unlock.
  destruct (Variant.lockCh c) as [[]|]; [done| |]; eexists; split; done.
Qed.

Lemma Unlock_not_locked_witness :
  ∃ reason,
    Variant.Unlock None variant0 world0 = (Panic reason, variant0, world0) ∧
    (Variant.lockCh variant0 = None → reason = "not locked").
Proof. apply Unlock_not_locked. discriminate. Defined.

(** C8, as stated, fails: a second [Close] is not a no-op.  A watcher that
    has closed once and closes again sends the release and the destroy once
    more and then panics on the closed channel (or stops at the error of one
    of the two requests); in the other variant it panics at once. *)
Lemma Close_twice_not_noop :
  (∃ c1 w1, Close None None consul0 world0 = (Done, c1, w1) ∧
     (∃ w2, Close None None c1 w1 = (Panic "close of closed channel", c1, w2) ∧
        w_sent w2 = w_sent w1 ++
          [ReqRelease (mkKVPair lockKey [Byte.x6f; Byte.x6b] "session-1");
           ReqSessionDestroy "session-1"]) ∧
     (∃ w2, Close (Some "invalid session") None c1 w1
            = (Failed "invalid session", c1, w2) ∧
        w_sent w2 = w_sent w1 ++
          [ReqRelease (mkKVPair lockKey [Byte.x6f; Byte.x6b] "session-1")])) ∧
  (∃ c1, Variant.Close variant0 world0 = (Done, c1, world0) ∧
     Variant.Close c1 world0 = (Panic "close of closed channel", c1, world0)).
Proof.
  split.
  - eexists _, _. split; [reflexivity|]. split; eexists; by vm_compute.
  - eexists. split; reflexivity.
Qed.

(** C8, amended: once a first [Close] has returned nil the stop channel is
    closed, and a second [Close] never returns nil: it sends requests again
    (the release, the lock being still marked held, or the destroy) and ends
    in their error or, when both are answered, in the panic of closing a
    closed channel.  In the other variant it panics at once. *)
Theorem second_Close_fails :
  (∀ release destroy c w c1 w1,
     Close release destroy c w = (Done, c1, w1) →
     stopCh c1 = ChClosed ∧
     ∀ release' destroy', ∃ r w2,
       Close release' destroy' c1 w1 = (r, c1, w2) ∧
       length (w_sent w1) < length (w_sent w2) ∧
       ((∃ e, r = Failed e) ∨ r = Panic "close of closed channel") ∧
       (release' = None → destroy' = None →
        r = Panic "close of closed channel")) ∧
  (∀ c w c1 w1,
     Variant.Close c w = (Done, c1, w1) →
     Variant.stopCh c1 = ChClosed ∧
     Variant.Close c1 w1 = (Panic "close of closed channel", c1, w1)).
Proof.
  split.
  - intros release destroy c w c1 w1. unfold Close.
    destruct (lock c) as [lk|] eqn:El; [|done].
    destruct (locked c) eqn:Ek, release, destroy, (stopCh c) eqn:Es;
      try done; intros [= <- <-]; simpl; (split; [done|]);
      intros release' destroy'; rewrite ?El;
      destruct release', destroy'; simpl;
      eexists _, _; (split; [reflexivity|]); simpl;
      rewrite ?length_app; simpl; split_and!; eauto with lia; done.
  - intros c w c1 w1. unfold Variant.Close.
    destruct (Variant.stopCh c); [|done]. by intros [= <- <-].
Qed.

Lemma second_Close_fails_witness :
  let first := Close None None consul0 world0 in
  let variant1 := (Variant.Close variant0 world0).1.2 in
  (∃ r w2,
     Close None None first.1.2 first.2 = (r, first.1.2, w2) ∧
     length (w_sent first.2) < length (w_sent w2) ∧
     ((∃ e, r = Failed e) ∨ r = Panic "close of closed channel") ∧
     (@None error = None → @None error = None →
      r = Panic "close of closed channel")) ∧
  Variant.Close variant1 world0
  = (Panic "close of closed channel", variant1, world0).
Proof.
  intros first variant1. split.
  - apply (proj2 (proj1 second_Close_fails None None consul0 world0
                    first.1.2 first.2 eq_refl) None None).
  - apply (proj2 (proj2 second_Close_fails variant0 world0 variant1 world0
                    eq_refl)).
Defined.

(** * Further properties of the code *)

(** ** [pos] and [del] *)

(** X1: [pos] is the index of the first check with the service identifier
    looked for, and -1 exactly when no check of the slice has it. *)
Theorem pos_first_match (hcs : list HealthCheck) (hc : HealthCheck) :
  (pos hcs hc = (-1)%Z ∧ ∀ c, c ∈ hcs → ServiceID c ≠ ServiceID hc) ∨
  (∃ k c, pos hcs hc = Z.of_nat k ∧ hcs !! k = Some c ∧
     ServiceID c = ServiceID hc ∧
     ∀ j c', j < k → hcs !! j = Some c' → ServiceID c' ≠ ServiceID hc).
Proof.
  unfold pos. pose proof (pos_from_spec 0%Z hcs hc) as H.
  destruct (list_find _ hcs) as [[k c]|] eqn:E.
  - right. apply list_find_Some in E as (Hk & Hc & Hfirst).
    exists k, c. split_and!; [lia|done|done|]. intros j c' Hj Hc'.
    by apply (Hfirst j c').
  - left. split; [done|]. rewrite list_find_None, Forall_forall in E.
    exact E.
Qed.

Lemma shift_take W m i :
  i < m → m ≤ length W → take (m - 1) (shift W m i) = delete i (take m W).
Proof.
  intros Hi Hm. apply list_eq. intros t.
  destruct (decide (t < m - 1)) as [Ht|Ht].
  - rewrite lookup_take_lt, shift_lookup by lia.
    destruct (decide (t < i)).
    + rewrite list_lookup_delete_lt, lookup_take_lt by lia. done.
    + rewrite decide_True by done.
      rewrite list_lookup_delete_ge, lookup_take_lt by lia.
      f_equal. lia.
  - rewrite lookup_take_ge by lia. symmetry. apply lookup_ge_None.
    rewrite length_delete, length_take.
    + lia.
    + apply lookup_lt_is_Some. rewrite length_take. lia.
Qed.

Lemma wf_on_window h s l :
  wf h s = true → base s = Some l →
  ∃ P Q, length P = off s ∧
    on_window l P Q (cap s) h (elems h s) (len s) s.
Proof.
  intros Hwf Hb. destruct (wf_Some _ _ _ Hwf Hb) as (a & Ha & Hlen & Hcap).
  exists (take (off s) a), (drop (off s + len s) a).
  assert (length (take (off s) a) = off s) as HP
    by (rewrite length_take; lia).
  split; [done|]. unfold on_window, elems, backing. rewrite Hb. simpl.
  rewrite Ha. simpl. rewrite HP.
  split_and!.
  - f_equal. rewrite <- drop_drop, take_drop. by rewrite take_drop.
  - destruct s; simpl in *. by subst.
  - rewrite length_take, length_drop. lia.
  - rewrite length_take, length_drop. lia.
Qed.

Lemma del_full growslice h hcs hc :
  wf h hcs = true →
  ∃ h' s', del growslice h hcs hc = Some (h', s') ∧
    wf h' s' = true ∧ length h' = length h ∧
    base s' = base hcs ∧ off s' = off hcs ∧ cap s' = cap hcs ∧
    (pos (elems h hcs) hc = (-1)%Z → h' = h ∧ s' = hcs) ∧
    (pos (elems h hcs) hc ≠ (-1)%Z →
       let k := Z.to_nat (pos (elems h hcs) hc) in
       len s' = len hcs - 1 ∧
       elems h' s' = delete k (elems h hcs) ∧
       elems h' hcs = delete k (elems h hcs)
                        ++ drop (len hcs - 1) (elems h hcs)).
Proof.
  intros Hwf. destruct (base hcs) as [l|] eqn:Hb.
  - destruct (wf_on_window _ _ _ Hwf Hb) as (P & Q & HP & Hw).
    destruct (del_window growslice l P Q (cap hcs) h (elems h hcs) (len hcs)
                hcs hc Hw) as (h' & s' & Hdel & Hw' & Hh').
    pose proof (wf_length _ _ Hwf) as HL.
    pose proof Hw as (Hl & Hs & _ & Hc).
    exists h', s'. split; [done|].
    destruct (on_window_wf _ _ _ _ _ _ _ _ Hw') as [Hwf' _].
    split; [done|]. split; [by rewrite Hh', length_insert|].
    pose proof Hw' as (Hl' & Hs' & _ & _).
    split; [by rewrite Hs'|]. split; [by rewrite Hs'|].
    split; [by rewrite Hs'|].
    unfold win_del in Hh', Hs', Hl', Hw'.
    rewrite (take_ge (elems h hcs)) in Hh', Hs', Hl', Hw' by lia.
    split.
    + intros E. rewrite decide_True in Hh', Hs' by done. simpl in *.
      split.
      * rewrite Hh'. by apply list_insert_id.
      * by rewrite Hs', Hs.
    + intros E k. rewrite decide_False in Hh', Hs', Hl', Hw' by done.
      simpl in Hh', Hs', Hl', Hw'. fold k in Hh', Hs', Hl', Hw'.
      assert (k < len hcs) as Hk.
      { apply pos_Some in E as [_ E]. unfold k. lia. }
      split; [by rewrite Hs'|].
      rewrite (on_window_elems _ _ _ _ _ _ _ _ Hw').
      rewrite shift_take by lia. rewrite take_ge by lia. split; [done|].
      assert (on_window l P Q (cap hcs) h' (shift (elems h hcs) (len hcs) k)
                (len hcs) hcs) as Hw2.
      { unfold on_window.
        rewrite shift_length by lia. split_and!; [done|done|lia|lia]. }
      rewrite (on_window_elems _ _ _ _ _ _ _ _ Hw2).
      rewrite take_ge by (rewrite shift_length; lia).
      unfold shift. rewrite delete_take_drop.
      rewrite (take_ge (drop _ _)) by (rewrite length_drop; lia).
      rewrite <- app_assoc. do 2 f_equal. by rewrite Nat.add_1_r.
  - destruct (wf_None _ _ Hwf Hb) as [Hlen Hcap].
    assert (elems h hcs = []) as He by (unfold elems; by rewrite Hlen).
    unfold del. rewrite He. simpl. exists h, hcs. split_and!; try done.
Qed.

(** X2: On a well-formed slice [del] never panics; it removes the first
    check with the service identifier of its argument and keeps the others
    in their order, or changes nothing when there is none; and it works in
    place: the result is a slice on the same array with the same capacity,
    no array is allocated. *)
Theorem del_removes_first (growslice : nat → nat → nat) (h : heap)
    (hcs : slice) (hc : HealthCheck) :
  wf h hcs = true →
  ∃ h' s', del growslice h hcs hc = Some (h', s') ∧
    wf h' s' = true ∧ length h' = length h ∧
    base s' = base hcs ∧ off s' = off hcs ∧ cap s' = cap hcs ∧
    (pos (elems h hcs) hc = (-1)%Z → h' = h ∧ s' = hcs) ∧
    (pos (elems h hcs) hc ≠ (-1)%Z →
       len s' = len hcs - 1 ∧
       elems h' s' = delete (Z.to_nat (pos (elems h hcs) hc)) (elems h hcs)).
Proof.
  intros Hwf.
  destruct (del_full growslice h hcs hc Hwf)
    as (h' & s' & ? & ? & ? & ? & ? & ? & ? & Hd).
  exists h', s'. split_and!; try done. intros E.
  destruct (Hd E) as (? & ? & _). done.
Qed.

Lemma del_removes_first_witness :
  ∃ h' s', del double heap3 snap3 (svc "b") = Some (h', s') ∧
    wf h' s' = true ∧ length h' = length heap3 ∧
    base s' = base snap3 ∧ off s' = off snap3 ∧ cap s' = cap snap3 ∧
    (pos (elems heap3 snap3) (svc "b") = (-1)%Z → h' = heap3 ∧ s' = snap3) ∧
    (pos (elems heap3 snap3) (svc "b") ≠ (-1)%Z →
       len s' = len snap3 - 1 ∧
       elems h' s' = delete (Z.to_nat (pos (elems heap3 snap3) (svc "b")))
                       (elems heap3 snap3)).
Proof. apply (del_removes_first double). reflexivity. Defined.

(** X3: [del] overwrites the slice it is given: after a deletion at [k] the
    caller's own slice, still of its old length, shows the checks that
    followed [k] moved one place to the front and its last check twice. *)
Theorem del_overwrites_argument (growslice : nat → nat → nat) (h : heap)
    (hcs : slice) (hc : HealthCheck) :
  wf h hcs = true →
  pos (elems h hcs) hc ≠ (-1)%Z →
  ∃ h' s', del growslice h hcs hc = Some (h', s') ∧
    elems h' hcs
    = delete (Z.to_nat (pos (elems h hcs) hc)) (elems h hcs)
        ++ drop (len hcs - 1) (elems h hcs).
Proof.
  intros Hwf E.
  destruct (del_full growslice h hcs hc Hwf)
    as (h' & s' & ? & _ & _ & _ & _ & _ & _ & Hd).
  exists h', s'. split; [done|]. destruct (Hd E) as (_ & _ & ?). done.
Qed.

Lemma del_overwrites_argument_witness :
  ∃ h' s', del double heap3 snap3 (svc "a") = Some (h', s') ∧
    elems h' snap3
    = delete (Z.to_nat (pos (elems heap3 snap3) (svc "a")))
        (elems heap3 snap3)
        ++ drop (len snap3 - 1) (elems heap3 snap3).
Proof.
  apply (del_overwrites_argument double); [reflexivity|]. by vm_compute.
Defined.

(** ** What a tick keeps, reports and leaves *)

Lemma win_passing_idle hc : ∀ ks W m,
  (∀ k x, k ∈ ks → W !! k = Some x → pos hc x ≠ (-1)%Z) →
  win_passing hc ks W m = (W, m, []).
Proof.
  induction ks as [|k ks IH]; intros W m Hall; simpl; [done|].
  destruct (W !! k) as [check|] eqn:Ek; [|done].
  rewrite decide_True.
  - apply IH. intros k' x Hk'. apply Hall. by right.
  - apply (Hall k check); [by left|done].
Qed.

Lemma critical_on_new hc : ∀ cur id,
  id ∈ ids (critical_on hc cur).2 ↔ id ∈ ids hc ∧ id ∉ ids cur.
Proof.
  unfold ids. induction hc as [|check hc IH]; intros cur id; simpl.
  - rewrite elem_of_nil. tauto.
  - rewrite elem_of_cons. case_decide as E.
    + rewrite IH.
      assert (ServiceID check ∈ ServiceID <$> cur) as Hin.
      { destruct (decide (ServiceID check ∈ ServiceID <$> cur)); [done|].
        exfalso. apply E. by apply pos_None. }
      split; [tauto|]. intros [[->|H] Hn]; [done|tauto].
    + assert (ServiceID check ∉ ServiceID <$> cur) as Hout.
      { apply pos_None. destruct (decide (pos cur check = (-1)%Z)); tauto. }
      specialize (IH (cur ++ [check]) id).
      destruct (critical_on hc _) as [cur' cc]. simpl in *.
      rewrite elem_of_cons, IH, fmap_app, elem_of_app. simpl.
      rewrite list_elem_of_singleton.
      destruct (decide (id = ServiceID check)) as [->|Hne]; tauto.
Qed.

Lemma critical_on_idle hc : ∀ cur,
  (∀ id, id ∈ ids hc → id ∈ ids cur) → critical_on hc cur = (cur, []).
Proof.
  unfold ids. induction hc as [|check hc IH]; intros cur Hall; simpl; [done|].
  rewrite decide_True.
  - apply IH. intros id Hid. apply Hall. simpl. by right.
  - intros E. apply pos_None in E. apply E, Hall. simpl. by left.
Qed.

Lemma win_del_keeps W m hc x :
  m ≤ length W → x ∈ take m W → ServiceID x ≠ ServiceID hc →
  x ∈ take (win_del W m hc).2 (win_del W m hc).1.
Proof.
  intros Hm Hx Hne. unfold win_del. case_decide as E; [done|]. simpl.
  pose proof (pos_Some _ _ E) as [_ Hlt]. rewrite length_take in Hlt.
  destruct (pos_first_match (take m W) hc) as [[E' _]|(k & c & Ek & Hc & Hid & _)];
    [done|].
  rewrite Ek, Nat2Z.id in *. rewrite shift_take by lia.
  apply list_elem_of_lookup in Hx as [j Hj].
  assert (j ≠ k) as Hjk by (intros ->; congruence).
  apply list_elem_of_lookup.
  destruct (decide (j < k)).
  - exists j. by rewrite list_lookup_delete_lt.
  - exists (j - 1). rewrite list_lookup_delete_ge by lia.
    rewrite <- Hj. f_equal. lia.
Qed.

Lemma win_passing_keeps hc x : ∀ ks W m,
  m ≤ length W → x ∈ take m W → ServiceID x ∈ ids hc →
  x ∈ take (win_passing hc ks W m).1.2 (win_passing hc ks W m).1.1.
Proof.
  induction ks as [|k ks IH]; intros W m Hm Hx Hid; simpl; [done|].
  destruct (W !! k) as [check|] eqn:Ek; [|done].
  case_decide as Ep; [by apply IH|].
  assert (pos hc check = (-1)%Z) as Ep'
    by (destruct (decide (pos hc check = (-1)%Z)); tauto).
  apply pos_None in Ep'.
  pose proof (win_del_length W m check Hm) as [HL Hm'].
  pose proof (win_del_keeps W m check x Hm Hx) as Hk.
  destruct (win_del W m check) as [W1 m1]. simpl in *.
  specialize (IH W1 m1). destruct (win_passing hc ks W1 m1) as [[W' m'] pc].
  simpl in *. apply IH; [lia| |done]. apply Hk. intros Heq.
  apply Ep'. unfold ids in Hid. by rewrite <- Heq.
Qed.

Lemma win_passing_head hc x : ∀ cnt k W m j,
  k ≤ j < k + cnt → W !! j = Some x → pos hc x = (-1)%Z →
  (∀ t y, k ≤ t < j → W !! t = Some y → pos hc y ≠ (-1)%Z) →
  ∃ rest, (win_passing hc (seq k cnt) W m).2 = x :: rest.
Proof.
  induction cnt as [|cnt IH]; intros k W m j Hj Hx Hp Hpre; [lia|]. simpl.
  destruct (decide (k = j)) as [->|Hne].
  - rewrite Hx. rewrite decide_False by tauto.
    destruct (win_del W m x) as [W1 m1].
    destruct (win_passing hc (seq (S j) cnt) W1 m1) as [[W' m'] pc].
    by exists pc.
  - destruct (W !! k) as [y|] eqn:Ek.
    2:{ apply lookup_ge_None in Ek. apply lookup_lt_Some in Hx. lia. }
    rewrite decide_True by (apply (Hpre k y); [lia|done]).
    apply (IH (S k) W m j); [lia|done|done|].
    intros t z Ht. apply Hpre. lia.
Qed.

(** X4: When every check of the snapshot is still failing, the tick reports
    no passing check and keeps the snapshot as it is, appending the newly
    critical checks: those of the live set whose identifier the snapshot did
    not have.  When the live set brings no new identifier either, the tick
    yields no event at all. *)
Theorem tick_without_recovery (growslice : nat → nat → nat)
    (hc : list HealthCheck) (h : heap) (s : slice) (log : list msg) :
  wf h s = true →
  (∀ x, x ∈ elems h s → ServiceID x ∈ ids hc) →
  ∃ st', tick growslice hc (TickState h s [] [] log) = Some st' ∧
    passing st' = [] ∧
    elems (mem st') (snapshot st') = elems h s ++ critical st' ∧
    (∀ id, id ∈ ids (critical st') ↔ id ∈ ids hc ∧ id ∉ ids (elems h s)) ∧
    ((∀ id, id ∈ ids hc → id ∈ ids (elems h s)) → critical st' = []).
Proof.
  intros Hwf Hall.
  destruct (tick_spec growslice hc (TickState h s [] [] log) Hwf)
    as (st' & Hrun & _ & _ & Hres).
  exists st'. split; [done|]. simpl in Hres. unfold tick_on in Hres.
  rewrite win_passing_idle in Hres.
  2:{ intros k x _ Hx Hp. apply pos_None in Hp. apply Hp.
      apply Hall. by eapply list_elem_of_lookup_2. }
  rewrite take_ge in Hres by done.
  pose proof (critical_on_app hc (elems h s)) as Happ.
  pose proof (critical_on_new hc (elems h s)) as Hnew.
  pose proof (critical_on_idle hc (elems h s)) as Hidle.
  destruct (critical_on hc (elems h s)) as [cur cc]. simpl in *.
  destruct Hres as (-> & -> & -> & _).
  split_and!; [done|done|done|]. intros Hsub. by injection (Hidle Hsub).
Qed.

Lemma tick_without_recovery_witness :
  ∃ st', tick double [svc "c"; svc "a"; svc "d"; svc "b"]
           (TickState heap3 snap3 [] [] []) = Some st' ∧
    passing st' = [] ∧
    elems (mem st') (snapshot st') = elems heap3 snap3 ++ critical st' ∧
    (∀ id, id ∈ ids (critical st')
           ↔ id ∈ ids [svc "c"; svc "a"; svc "d"; svc "b"]
             ∧ id ∉ ids (elems heap3 snap3)) ∧
    ((∀ id, id ∈ ids [svc "c"; svc "a"; svc "d"; svc "b"]
            → id ∈ ids (elems heap3 snap3)) → critical st' = []).
Proof.
  apply (tick_without_recovery double); [reflexivity|].
  intros x Hx. vm_compute in Hx.
  repeat (apply elem_of_cons in Hx as [->|Hx]);
    [| | |by apply elem_of_nil in Hx]; vm_compute;
    repeat first [apply list_elem_of_here | apply list_elem_of_further].
Defined.

(** X5: A check that is still failing is never lost and never announced
    again: every check of the snapshot whose identifier is in the live set
    is in the snapshot the tick leaves, and no newly-critical check has an
    identifier the snapshot already had. *)
Theorem tick_keeps_failing (growslice : nat → nat → nat)
    (hc : list HealthCheck) (h : heap) (s : slice) (log : list msg) :
  wf h s = true →
  ∃ st', tick growslice hc (TickState h s [] [] log) = Some st' ∧
    (∀ x, x ∈ elems h s → ServiceID x ∈ ids hc →
          x ∈ elems (mem st') (snapshot st')) ∧
    (∀ id, id ∈ ids (critical st') → id ∉ ids (elems h s)).
Proof.
  intros Hwf.
  destruct (tick_spec growslice hc (TickState h s [] [] log) Hwf)
    as (st' & Hrun & _ & _ & Hres).
  exists st'. split; [done|]. simpl in Hres. unfold tick_on in Hres.
  assert (∀ x, x ∈ elems h s → ServiceID x ∈ ids hc →
    x ∈ take (win_passing hc (seq 0 (length (elems h s))) (elems h s)
                (length (elems h s))).1.2
             (win_passing hc (seq 0 (length (elems h s))) (elems h s)
                (length (elems h s))).1.1) as Hkeep.
  { intros x Hx Hid. apply win_passing_keeps; [done| |done].
    by rewrite take_ge. }
  destruct (win_passing hc _ _ _) as [[W m] pc]. simpl in Hkeep.
  pose proof (critical_on_app hc (take m W)) as Happ.
  pose proof (critical_on_new hc (take m W)) as Hnew.
  destruct (critical_on hc (take m W)) as [cur cc]. simpl in *.
  destruct Hres as (-> & _ & -> & _). split.
  - intros x Hx Hid. rewrite Happ. apply elem_of_app. left. by apply Hkeep.
  - intros id Hid Hold. apply Hnew in Hid as [Hlive Hgone]. apply Hgone.
    unfold ids in Hold. apply list_elem_of_fmap in Hold as (x & -> & Hx).
    apply list_elem_of_fmap_2. by apply Hkeep.
Qed.

Lemma tick_keeps_failing_witness :
  ∃ st', tick double [svc "c"; svc "d"] (TickState heap3 snap3 [] [] [])
           = Some st' ∧
    (∀ x, x ∈ elems heap3 snap3 → ServiceID x ∈ ids [svc "c"; svc "d"] →
          x ∈ elems (mem st') (snapshot st')) ∧
    (∀ id, id ∈ ids (critical st') → id ∉ ids (elems heap3 snap3)).
Proof. apply (tick_keeps_failing double). reflexivity. Defined.

(** X6: A recovery is never missed altogether: the first check of the
    snapshot whose identifier is no longer in the live set is the first
    newly-passing check the tick reports. *)
Theorem tick_reports_first_recovery (growslice : nat → nat → nat)
    (hc : list HealthCheck) (h : heap) (s : slice) (log : list msg)
    (pre post : list HealthCheck) (x : HealthCheck) :
  wf h s = true →
  elems h s = pre ++ x :: post →
  (∀ y, y ∈ pre → ServiceID y ∈ ids hc) →
  ServiceID x ∉ ids hc →
  ∃ st' rest, tick growslice hc (TickState h s [] [] log) = Some st' ∧
    passing st' = x :: rest.
Proof.
  intros Hwf HA Hpre Hx.
  destruct (tick_spec growslice hc (TickState h s [] [] log) Hwf)
    as (st' & Hrun & _ & _ & Hres).
  simpl in Hres. unfold tick_on in Hres.
  destruct (win_passing_head hc x (length (elems h s)) 0 (elems h s)
              (length (elems h s)) (length pre)) as [rest Hrest].
  - rewrite HA, length_app. simpl. lia.
  - rewrite HA. by apply list_lookup_middle.
  - by apply pos_None.
  - intros t y Ht Hy Hp. apply pos_None in Hp. apply Hp, Hpre.
    rewrite HA, lookup_app_l in Hy by lia. by eapply list_elem_of_lookup_2.
  - destruct (win_passing hc _ _ _) as [[W m] pc]. simpl in Hrest.
    destruct (critical_on hc (take m W)) as [cur cc].
    destruct Hres as (_ & Hp & _). exists st', rest. by rewrite Hp, Hrest.
Qed.

Lemma tick_reports_first_recovery_witness :
  ∃ st' rest, tick double [svc "a"; svc "d"] (TickState heap3 snap3 [] [] [])
                = Some st' ∧
    passing st' = svc "b" :: rest.
Proof.
  apply (tick_reports_first_recovery double _ heap3 snap3 []
           [svc "a"] [svc "c"]); [reflexivity|reflexivity| |].
  - intros y Hy. apply list_elem_of_singleton in Hy as ->.
    apply list_elem_of_here.
  - vm_compute. intros H.
    repeat (apply elem_of_cons in H as [H|H]; [discriminate|]).
    by apply elem_of_nil in H.
Defined.

(** X7: A tick run again on the same live set announces no critical check:
    after a tick, every identifier of the live set is in the snapshot, and
    the next tick's passing loop leaves it there. *)
Theorem tick_again_no_critical (growslice : nat → nat → nat)
    (hc : list HealthCheck) (h : heap) (s : slice) (log : list msg) :
  wf h s = true →
  ∃ st1 st2,
    tick growslice hc (TickState h s [] [] log) = Some st1 ∧
    tick growslice hc (TickState (mem st1) (snapshot st1) [] [] (stderr st1))
      = Some st2 ∧
    critical st2 = [].
Proof.
  intros Hwf.
  destruct (tick_spec growslice hc (TickState h s [] [] log) Hwf)
    as (st1 & Hrun1 & Hwf1 & _ & Hres1).
  destruct (tick_spec growslice hc
              (TickState (mem st1) (snapshot st1) [] [] (stderr st1)) Hwf1)
    as (st2 & Hrun2 & _ & _ & Hres2).
  exists st1, st2. split; [done|]. split; [done|].
  simpl in Hres1, Hres2. unfold tick_on in Hres1, Hres2.
  destruct (win_passing hc _ (elems h s) _) as [[W m] pc].
  pose proof (critical_on_covers hc (take m W)) as Hcov.
  destruct (critical_on hc (take m W)) as [cur cc]. simpl in *.
  destruct Hres1 as (Hcur & _). rewrite Hcur in Hres2.
  assert (∀ id, id ∈ ids hc →
    id ∈ ids (take (win_passing hc (seq 0 (length cur)) cur (length cur)).1.2
                (win_passing hc (seq 0 (length cur)) cur (length cur)).1.1))
    as Hkeep.
  { intros id Hid. pose proof (Hcov id (or_intror Hid)) as Hin.
    unfold ids in Hin. apply list_elem_of_fmap in Hin as (x & -> & Hx).
    apply list_elem_of_fmap_2. apply win_passing_keeps; [done| |done].
    by rewrite take_ge. }
  destruct (win_passing hc _ cur _) as [[W2 m2] pc2]. simpl in Hkeep.
  rewrite (critical_on_idle hc (take m2 W2) Hkeep) in Hres2.
  by destruct Hres2 as (_ & _ & -> & _).
Qed.

Lemma tick_again_no_critical_witness :
  ∃ st1 st2,
    tick double [svc "b"; svc "d"] (TickState heap3 snap3 [] [] [])
      = Some st1 ∧
    tick double [svc "b"; svc "d"]
      (TickState (mem st1) (snapshot st1) [] [] (stderr st1)) = Some st2 ∧
    critical st2 = [].
Proof. apply (tick_again_no_critical double). reflexivity. Defined.

(** ** When the tick is exact *)

Lemma pos_from_app (i : Z) (F rest : list HealthCheck) (c x : HealthCheck) :
  (∀ y, y ∈ F → ServiceID y ≠ ServiceID x) →
  ServiceID c = ServiceID x →
  pos_from i (F ++ c :: rest) x = (i + Z.of_nat (length F))%Z.
Proof.
  revert i. induction F as [|y F IH]; intros i HF Hc; simpl.
  - rewrite Hc, String.eqb_refl. lia.
  - destruct (String.eqb_spec (ServiceID y) (ServiceID x)) as [E|E].
    + exfalso. by apply (HF y); [left|].
    + rewrite IH; [lia| |done]. intros z Hz. apply HF. by right.
Qed.

Lemma pos_app_first (F rest : list HealthCheck) (c x : HealthCheck) :
  (∀ y, y ∈ F → ServiceID y ≠ ServiceID x) →
  ServiceID c = ServiceID x →
  pos (F ++ c :: rest) x = Z.of_nat (length F).
Proof. intros HF Hc. unfold pos. by rewrite pos_from_app. Qed.

Lemma win_passing_skip hc k ks W m check :
  W !! k = Some check → pos hc check ≠ (-1)%Z →
  win_passing hc (k :: ks) W m = win_passing hc ks W m.
Proof. intros Hk Hp. simpl. rewrite Hk. by rewrite decide_True. Qed.

Lemma win_passing_emit hc k ks W m check :
  W !! k = Some check → pos hc check = (-1)%Z →
  (win_passing hc (k :: ks) W m).1
  = (win_passing hc ks (win_del W m check).1 (win_del W m check).2).1.
Proof.
  intros Hk Hp. simpl. rewrite Hk. rewrite decide_False by tauto.
  destruct (win_del W m check) as [W1 m1]. simpl.
  by destruct (win_passing hc ks W1 m1) as [[W' m'] pc].
Qed.

(** Once the live part holds only checks that are still failing, the rest of
    the loop leaves it alone. *)
Lemma win_passing_settled hc : ∀ ks W m,
  (∀ y, y ∈ take m W → pos hc y ≠ (-1)%Z) →
  (win_passing hc ks W m).1 = (W, m).
Proof.
  induction ks as [|k ks IH]; intros W m Hall; [done|].
  destruct (W !! k) as [check|] eqn:Ek; [|by simpl; rewrite Ek].
  destruct (decide (pos hc check = (-1)%Z)) as [Ep|Ep].
  - rewrite (win_passing_emit _ _ _ _ _ _ Ek Ep).
    assert (win_del W m check = (W, m)) as ->; [|by apply IH].
    unfold win_del. rewrite decide_True; [done|]. apply pos_None.
    intros Hin. apply list_elem_of_fmap in Hin as (y & Hid & Hy).
    apply (Hall y Hy). apply pos_None. rewrite <- Hid. by apply pos_None.
  - rewrite (win_passing_skip _ _ _ _ _ _ Ek Ep). by apply IH.
Qed.

Section Apart.
Variables (hc A : list HealthCheck).

Local Abbreviation keep := (λ x : HealthCheck, pos hc x ≠ (-1)%Z).

Hypothesis apart : ∀ j x y,
  A !! j = Some x → A !! S j = Some y →
  pos hc x = (-1)%Z → pos hc y ≠ (-1)%Z.

Lemma win_passing_apart : ∀ cnt k j W m,
  length W = length A → m + j = length A + k → k ≤ m → m ≤ length A →
  k + cnt = length A →
  take m W = filter keep (take j A) ++ drop j A →
  length (filter keep (take j A)) = k →
  take (win_passing hc (seq k cnt) W m).1.2
       (win_passing hc (seq k cnt) W m).1.1
  = filter keep A.
Proof.
  induction cnt as [|cnt IH]; intros k j W m HW Hmj Hkm Hmn Hcnt Hlive HF.
  - simpl. rewrite Hlive. rewrite take_ge, drop_ge by lia.
    by rewrite app_nil_r.
  - destruct (decide (k = m)) as [->|Hne].
    + rewrite (take_ge A), (drop_ge A), app_nil_r in Hlive by lia.
      rewrite win_passing_settled; [done|].
      intros y Hy. rewrite Hlive in Hy.
      by apply list_elem_of_filter in Hy as [? _].
    + assert (j < length A) as Hj by lia.
      destruct (lookup_lt_is_Some_2 A j Hj) as [a Ha].
      assert (W !! k = Some a) as Hk.
      { rewrite <- (lookup_take_lt W m k) by lia. rewrite Hlive.
        rewrite lookup_app_r by lia. rewrite HF, Nat.sub_diag.
        rewrite lookup_drop. by rewrite Nat.add_0_r. }
      change (seq k (S cnt)) with (k :: seq (S k) cnt).
      destruct (decide (pos hc a = (-1)%Z)) as [Ep|Ep].
      * rewrite (win_passing_emit _ _ _ _ _ _ Hk Ep).
        rewrite (drop_S _ _ _ Ha) in Hlive.
        assert (pos (take m W) a = Z.of_nat k) as Hpos.
        { rewrite Hlive, pos_app_first; [by rewrite HF| |done].
          intros y Hy Hid. apply list_elem_of_filter in Hy as [Hy _].
          apply Hy. apply pos_None. rewrite Hid. by apply pos_None. }
        unfold win_del. rewrite Hpos, decide_False by lia. simpl.
        rewrite Nat2Z.id.
        assert (take (m - 1) (shift W m k)
                = filter keep (take j A) ++ drop (S j) A) as Hlive'.
        { rewrite shift_take by lia. rewrite Hlive.
          rewrite <- HF at 1. apply delete_middle. }
        assert (filter keep (take j A ++ [a]) = filter keep (take j A))
          as Hfa.
        { rewrite filter_app, filter_cons_False, filter_nil, app_nil_r;
            [done|]. tauto. }
        destruct (decide (S k = m)) as [Hlast|Hmore].
        -- rewrite win_passing_settled.
           ++ simpl. rewrite Hlive'. rewrite drop_ge, app_nil_r by lia.
              rewrite <- Hfa, <- (take_S_r _ _ _ Ha). by rewrite take_ge by lia.
           ++ intros y Hy. rewrite Hlive' in Hy.
              rewrite drop_ge, app_nil_r in Hy by lia.
              by apply list_elem_of_filter in Hy as [? _].
        -- assert (S j < length A) as Hj' by lia.
           destruct (lookup_lt_is_Some_2 A (S j) Hj') as [b Hb].
           pose proof (apart j a b Ha Hb Ep) as Hkb.
           apply (IH (S k) (S (S j))).
           ++ rewrite shift_length; lia.
           ++ lia.
           ++ lia.
           ++ lia.
           ++ lia.
           ++ rewrite Hlive'. rewrite (take_S_r _ _ _ Hb).
              rewrite (take_S_r _ _ _ Ha).
              rewrite filter_app, Hfa, filter_cons_True, filter_nil by done.
              rewrite (drop_S _ _ _ Hb). by rewrite <- app_assoc.
           ++ rewrite (take_S_r _ _ _ Hb), (take_S_r _ _ _ Ha).
              rewrite filter_app, Hfa, filter_cons_True, filter_nil by done.
              rewrite length_app. simpl. lia.
      * rewrite (win_passing_skip _ _ _ _ _ _ Hk Ep).
        apply (IH (S k) (S j)); try lia.
        -- rewrite Hlive, (take_S_r _ _ _ Ha).
           rewrite filter_app, filter_cons_True, filter_nil by done.
           rewrite (drop_S _ _ _ Ha). by rewrite <- app_assoc.
        -- rewrite (take_S_r _ _ _ Ha).
           rewrite filter_app, filter_cons_True, filter_nil by done.
           rewrite length_app. simpl. lia.
Qed.

End Apart.

(** X8: When no two checks that are neighbours in the snapshot recover in
    the same tick, the tick leaves exactly what it should: the checks of the
    snapshot that are still failing, in their order, followed by the newly
    critical ones; the identifiers of the snapshot are then those of the live
    set. *)
Theorem tick_exact_when_recoveries_apart (growslice : nat → nat → nat)
    (hc : list HealthCheck) (h : heap) (s : slice) (log : list msg) :
  wf h s = true →
  (∀ j x y, elems h s !! j = Some x → elems h s !! S j = Some y →
            ServiceID x ∉ ids hc → ServiceID y ∈ ids hc) →
  ∃ st', tick growslice hc (TickState h s [] [] log) = Some st' ∧
    elems (mem st') (snapshot st')
    = filter (λ x, ServiceID x ∈ ids hc) (elems h s) ++ critical st' ∧
    ∀ id, id ∈ ids (elems (mem st') (snapshot st')) ↔ id ∈ ids hc.
Proof.
  intros Hwf Hapart.
  destruct (tick_spec growslice hc (TickState h s [] [] log) Hwf)
    as (st' & Hrun & _ & _ & Hres).
  exists st'. split; [done|]. simpl in Hres. unfold tick_on in Hres.
  assert (∀ x, pos hc x ≠ (-1)%Z ↔ ServiceID x ∈ ids hc) as Hkeep.
  { intros x. rewrite pos_None. unfold ids.
    destruct (decide (ServiceID x ∈ ServiceID <$> hc)); tauto. }
  pose proof (win_passing_apart hc (elems h s)) as Hexact.
  specialize (Hexact (λ j x y Hx Hy Hp,
    proj2 (Hkeep y) (Hapart j x y Hx Hy (proj1 (pos_None hc x) Hp)))).
  specialize (Hexact (length (elems h s)) 0 0 (elems h s)
                (length (elems h s))).
  rewrite take_0, drop_0, take_ge in Hexact by done.
  specialize (Hexact eq_refl ltac:(lia) ltac:(lia) ltac:(lia) eq_refl eq_refl
                eq_refl).
  destruct (win_passing hc _ _ _) as [[W m] pc]. simpl in Hexact.
  pose proof (critical_on_app hc (take m W)) as Happ.
  pose proof (critical_on_covers hc (take m W)) as Hcov.
  pose proof (critical_on_sublist hc (take m W)) as Hsub.
  destruct (critical_on hc (take m W)) as [cur cc]. simpl in *.
  destruct Hres as (-> & _ & -> & _).
  assert (take m W = filter (λ x, ServiceID x ∈ ids hc) (elems h s)) as Hf.
  { rewrite Hexact. apply list_filter_iff. intros x. apply Hkeep. }
  split; [by rewrite Happ, Hf|]. intros id. split; [|by auto].
  rewrite Happ. unfold ids at 1. rewrite fmap_app, elem_of_app.
  intros [Hin|Hin]; apply list_elem_of_fmap in Hin as (x & -> & Hx).
  - rewrite Hf in Hx. by apply list_elem_of_filter in Hx as [? _].
  - apply list_elem_of_fmap_2. by eapply sublist_subseteq.
Qed.

Lemma tick_exact_when_recoveries_apart_witness :
  ∃ st', tick double [svc "b"; svc "d"] (TickState heap3 snap3 [] [] [])
           = Some st' ∧
    elems (mem st') (snapshot st')
    = filter (λ x, ServiceID x ∈ ids [svc "b"; svc "d"]) (elems heap3 snap3)
        ++ critical st' ∧
    ∀ id, id ∈ ids (elems (mem st') (snapshot st'))
          ↔ id ∈ ids [svc "b"; svc "d"].
Proof.
  apply (tick_exact_when_recoveries_apart double); [reflexivity|].
  intros j x y Hx Hy Hgone.
  destruct j as [|[|[|j]]]; vm_compute in Hx, Hy; try discriminate.
  - injection Hy as <-. apply list_elem_of_here.
  - injection Hx as <-. exfalso. apply Hgone. apply list_elem_of_here.
Defined.

(** ** [Next]: errors, returns and restarts *)

Section NextProps.
Variable growslice : nat → nat → nat.
Variable json_Marshal : list HealthCheck → bytes + error.
Variable json_Unmarshal : bytes → list HealthCheck * option error.

Local Abbreviation load := (load growslice json_Unmarshal).
Local Abbreviation dump := (dump json_Marshal).
Local Abbreviation Next_loop := (Next_loop growslice json_Marshal).
Local Abbreviation Next := (Next growslice json_Marshal json_Unmarshal).

(** One round of the loop of [Next] on a timer wake-up whose health query is
    answered, from the head of the loop. *)
Lemma Next_loop_tick hc put rest c w cur pc ccs :
  wf (w_mem w) (cc c) = true →
  tick_on hc (elems (w_mem w) (cc c)) = (cur, pc, ccs) →
  ∃ st,
    tick growslice hc
      (TickState (w_mem w) (cc c) [] [] (w_stderr w)) = Some st ∧
    elems (mem st) (snapshot st) = cur ∧ passing st = pc ∧
    critical st = ccs ∧
    Next_loop (TimerC (inl hc) put :: rest) c w [] [] None
    = (let c1 := set_cc (snapshot st) c in
       let w1 := World (mem st) (w_kv w) (stderr st)
                   (w_sent w ++ [ReqHealthState "critical"]) in
       let '(w2, err) := dump put (snapshot st) w1 in
       match err with
       | Some _ => (Returned ccs pc err, c1, w2)
       | None =>
           if decide (0 < length ccs ∨ 0 < length pc)
           then (Returned ccs pc None, c1, w2)
           else Next_loop rest c1 w2 ccs pc None
       end).
Proof.
  intros Hwf Htick.
  destruct (tick_spec growslice hc
              (TickState (w_mem w) (cc c) [] [] (w_stderr w)) Hwf)
    as (st & Hst & _ & _ & Hres).
  simpl in Hst, Hres. rewrite Htick in Hres.
  destruct Hres as (Hcur & Hp & Hc & _). simpl in Hp, Hc.
  exists st. split_and!; [done..|]. simpl. rewrite Hst. simpl.
  rewrite Hp, Hc. destruct (dump put (snapshot st) _) as [w2 [e|]]; done.
Qed.


(** X10: When the health query fails, [Next] returns that error at once,
    with no event; the snapshot in memory and the store are as they were,
    nothing is written. *)
Theorem Next_fetch_error (get : option error) (ws rest : list wakeup)
    (e : error) (put : option error) (c : Consul) (w : world)
    (c1 : Consul) (w1 : world) :
  Next get ws c w = (Waiting, c1, w1) →
  Next get (ws ++ TimerC (inr e) put :: rest) c w
  = (Returned [] [] (Some e), c1, send (ReqHealthState "critical") w1).
Proof. intros H. by rewrite (Next_app _ _ _ _ _ _ _ _ _ _ H). Qed.

(** X11: When the put of [dump] fails, [Next] returns the error together
    with the events of the tick: the snapshot in memory has moved on while
    the store still holds what it held. *)
Theorem Next_dump_failure (get : option error) (ws rest : list wakeup)
    (hc : list HealthCheck) (e : error) (c : Consul) (w : world)
    (c1 : Consul) (w1 : world) (cur pc ccs : list HealthCheck) (b : bytes) :
  wf (w_mem w) (cc c) = true →
  Next get ws c w = (Waiting, c1, w1) →
  tick_on hc (elems (w_mem w1) (cc c1)) = (cur, pc, ccs) →
  json_Marshal cur = inl b →
  ∃ c2 w2,
    Next get (ws ++ TimerC (inl hc) (Some e) :: rest) c w
    = (Returned ccs pc (Some e), c2, w2) ∧
    elems (w_mem w2) (cc c2) = cur ∧ w_kv w2 = w_kv w1 ∧
    w_sent w2 = w_sent w1 ++ [ReqHealthState "critical"; ReqPut stateKey b].
Proof.
  intros Hwf Hrun Htick Hb. rewrite (Next_app _ _ _ _ _ _ _ _ _ _ Hrun).
  pose proof (Next_wf growslice json_Marshal json_Unmarshal get ws c w Hwf)
    as [_ Hwf1].
  rewrite Hrun in Hwf1. simpl in Hwf1.
  destruct (Next_loop_tick hc (Some e) rest c1 w1 cur pc ccs Hwf1 Htick)
    as (st & _ & Hcur & _ & _ & ->).
  cbv zeta. rewrite dump_unfold. simpl. rewrite Hcur, Hb. simpl.
  eexists _, _. split; [reflexivity|]. simpl.
  by rewrite <- app_assoc.
Qed.

(** X12: [Next] returns the first tick that yields an event, once its
    snapshot is saved: the events are the tick's, the snapshot held and
    stored is the tick's, and the wake-ups that follow are left alone. *)
Theorem Next_returns_first_event (get : option error) (ws rest : list wakeup)
    (hc : list HealthCheck) (c : Consul) (w : world)
    (c1 : Consul) (w1 : world) (cur pc ccs : list HealthCheck) (b : bytes) :
  wf (w_mem w) (cc c) = true →
  Next get ws c w = (Waiting, c1, w1) →
  tick_on hc (elems (w_mem w1) (cc c1)) = (cur, pc, ccs) →
  pc ≠ [] ∨ ccs ≠ [] →
  json_Marshal cur = inl b →
  ∃ c2 w2,
    Next get (ws ++ TimerC (inl hc) None :: rest) c w
    = (Returned ccs pc None, c2, w2) ∧
    elems (w_mem w2) (cc c2) = cur ∧ w_kv w2 !! stateKey = Some b.
Proof.
  intros Hwf Hrun Htick Hev Hb. rewrite (Next_app _ _ _ _ _ _ _ _ _ _ Hrun).
  pose proof (Next_wf growslice json_Marshal json_Unmarshal get ws c w Hwf)
    as [_ Hwf1].
  rewrite Hrun in Hwf1. simpl in Hwf1.
  destruct (Next_loop_tick hc None rest c1 w1 cur pc ccs Hwf1 Htick)
    as (st & _ & Hcur & _ & _ & ->).
  cbv zeta. rewrite dump_unfold. simpl. rewrite Hcur, Hb. simpl.
  rewrite decide_True.
  - eexists _, _. split; [reflexivity|]. simpl. split; [done|].
    apply lookup_insert_eq.
  - destruct Hev as [Hev|Hev]; [right|left];
      (destruct pc, ccs; simpl; try done; lia).
Qed.

(** X13: After a load that failed to decode, [c.cc] is no longer nil: a
    further call of [Next] does not load again and runs its ticks from what
    the decoder left.  After a load whose get failed, [c.cc] is still nil and
    the further call loads again. *)
Theorem Next_after_failed_load (ws : list wakeup) (c : Consul) (w : world) :
  is_nil (cc c) = true →
  (∀ v xs e, w_kv w !! stateKey = Some v →
     json_Unmarshal v = (xs, Some e) →
     ∃ c' w', Next None ws c w = (Returned [] [] (Some e), c', w') ∧
       elems (w_mem w') (cc c') = xs ∧
       ∀ get' ws', Next get' ws' c' w' = Next_loop ws' c' w' [] [] None) ∧
  (∀ e, ∃ c' w', Next (Some e) ws c w = (Returned [] [] (Some e), c', w') ∧
     is_nil (cc c') = true ∧ w_mem w' = w_mem w).
Proof.
  intros Hnil. split.
  - intros v xs e Hv Hdec. rewrite Next_unfold, Hnil, load_unfold.
    unfold kv_Get. simpl. rewrite Hv, Hdec. simpl.
    eexists _, _. split; [reflexivity|]. simpl.
    destruct (alloc_spec (w_mem w ++ [[]]) xs (growslice 0 (length xs)))
      as (_ & Hel & Hnn).
    split; [exact Hel|]. intros get' ws'. rewrite Next_unfold. simpl.
    done.
  - intros e. rewrite Next_unfold, Hnil, load_unfold. simpl.
    eexists _, _. split; [reflexivity|]. done.
Qed.

(** X14: A watcher that starts afresh resumes where the last returned batch
    left off: when [Next] has returned events with a nil error, [load] on the
    store it leaves gives back the snapshot it held, for every snapshot the
    codec writes and reads back. *)
Theorem restart_resumes (get : option error) (ws : list wakeup)
    (c : Consul) (w : world) (rcc rpc : list HealthCheck)
    (c' : Consul) (w' : world) :
  Next get ws c w = (Returned rcc rpc None, c', w') →
  rcc ≠ [] ∨ rpc ≠ [] →
  (∀ b, json_Marshal (elems (w_mem w') (cc c')) = inl b →
        json_Unmarshal b = (elems (w_mem w') (cc c'), None)) →
  ∃ w2 chs, load None w' = (w2, chs, None) ∧
    elems (w_mem w2) chs = elems (w_mem w') (cc c').
Proof.
  intros Hrun Hev Hcodec.
  assert (persisted json_Marshal c' w') as (b & Hb & Hkv & _).
  { revert Hrun. rewrite Next_unfold.
    destruct (is_nil (cc c)); [|intros; by eapply Next_loop_persisted].
    destruct (load get w) as [[w0 chs] err].
    destruct err; [intros [= <- <- _ _]; tauto|].
    intros; by eapply Next_loop_persisted. }
  rewrite load_unfold. unfold kv_Get. simpl. rewrite Hkv, (Hcodec b Hb).
  simpl. eexists _, _. split; [reflexivity|].
  apply (alloc_spec (w_mem w' ++ [[]])).
Qed.

End NextProps.


Lemma Next_fetch_error_witness :
  let idle := Next double fake_Marshal fake_Unmarshal None
                [TimerC (inl []) None] consul0 world0 in
  Next double fake_Marshal fake_Unmarshal None
    ([TimerC (inl []) None] ++ TimerC (inr "connection refused") None :: [])
    consul0 world0
  = (Returned [] [] (Some "connection refused"), idle.1.2,
     send (ReqHealthState "critical") idle.2).
Proof.
  intros idle.
  apply (Next_fetch_error double fake_Marshal fake_Unmarshal).
  apply (triple_eta idle).
Defined.

Lemma Next_dump_failure_witness :
  let idle := Next double fake_Marshal fake_Unmarshal None [] consul0 world0 in
  ∃ c2 w2,
    Next double fake_Marshal fake_Unmarshal None
      ([] ++ TimerC (inl [svc "a"]) (Some "connection refused") :: [])
      consul0 world0
    = (Returned [svc "a"] [] (Some "connection refused"), c2, w2) ∧
    elems (w_mem w2) (cc c2) = [svc "a"] ∧ w_kv w2 = w_kv idle.2 ∧
    w_sent w2 = w_sent idle.2 ++
      [ReqHealthState "critical";
       ReqPut stateKey [Byte.x61; Byte.x00]].
Proof.
  intros idle.
  apply (Next_dump_failure double fake_Marshal fake_Unmarshal None [] []
           [svc "a"] "connection refused" consul0 world0 idle.1.2 idle.2
           [svc "a"] [] [svc "a"]); reflexivity.
Defined.

Lemma Next_returns_first_event_witness :
  let idle := Next double fake_Marshal fake_Unmarshal None [] consul0 world0 in
  ∃ c2 w2,
    Next double fake_Marshal fake_Unmarshal None
      ([] ++ TimerC (inl [svc "a"]) None :: [StopCh]) consul0 world0
    = (Returned [svc "a"] [] None, c2, w2) ∧
    elems (w_mem w2) (cc c2) = [svc "a"] ∧
    w_kv w2 !! stateKey = Some [Byte.x61; Byte.x00].
Proof.
  intros idle.
  apply (Next_returns_first_event double fake_Marshal fake_Unmarshal None []
           [StopCh] [svc "a"] consul0 world0 idle.1.2 idle.2
           [svc "a"] [] [svc "a"]); try reflexivity.
  right. discriminate.
Defined.

Lemma Next_after_failed_load_witness :
  (∃ c' w',
     Next double fake_Marshal fake_Unmarshal None [] consul0 world_corrupt
     = (Returned [] [] (Some "unexpected end of JSON input"), c', w') ∧
     elems (w_mem w') (cc c') = [] ∧
     ∀ get' ws', Next double fake_Marshal fake_Unmarshal get' ws' c' w'
                 = Next_loop double fake_Marshal ws' c' w' [] [] None) ∧
  (∃ c' w',
     Next double fake_Marshal fake_Unmarshal (Some "connection refused") []
       consul0 world0
     = (Returned [] [] (Some "connection refused"), c', w') ∧
     is_nil (cc c') = true ∧ w_mem w' = w_mem world0).
Proof.
  destruct (Next_after_failed_load double fake_Marshal fake_Unmarshal []
              consul0 world_corrupt eq_refl) as [Hdec _].
  destruct (Next_after_failed_load double fake_Marshal fake_Unmarshal []
              consul0 world0 eq_refl) as [_ Hget].
  split.
  - exact (Hdec [Byte.x61] [] "unexpected end of JSON input" eq_refl eq_refl).
  - exact (Hget "connection refused").
Defined.

Lemma restart_resumes_witness :
  let run := Next double fake_Marshal fake_Unmarshal None
               [TimerC (inl [svc "a"]) None] consul0 world0 in
  ∃ w2 chs, load double fake_Unmarshal None run.2 = (w2, chs, None) ∧
    elems (w_mem w2) chs = elems (w_mem run.2) (cc run.1.2).
Proof.
  intros run.
  apply (restart_resumes double fake_Marshal fake_Unmarshal None
           [TimerC (inl [svc "a"]) None] consul0 world0 [svc "a"] []).
  - apply (triple_eta run).
  - left. discriminate.
  - intros b Hb. vm_compute in Hb. injection Hb as <-. reflexivity.
Defined.

(** ** The session and the lock *)

Lemma lock_loop_refused lk : ∀ n rounds c w,
  lock_loop lk (replicate n (AcquireSays false) ++ rounds) c w
  = lock_loop lk rounds c
      (World (w_mem w) (w_kv w) (w_stderr w)
         (w_sent w ++ mjoin (replicate n [ReqGet lockKey; ReqAcquire lk]))).
Proof.
  induction n as [|n IH]; intros rounds c w; simpl.
  - rewrite app_nil_r. by destruct w.
  - rewrite IH. simpl. by rewrite <- !app_assoc.
Qed.

(** X15: [startSession] asks until the lock is granted: after any number of
    refusals, the first grant ends it with the watcher marked locked, one get
    and one acquire having been sent per round and nothing else; the first
    error of a get or an acquire ends it with that error and the watcher not
    marked locked. *)
Theorem startSession_asks_until_granted (sess : string) (n : nat)
    (rest : list round) (c : Consul) (w : world) :
  let lk := mkKVPair lockKey [Byte.x6f; Byte.x6b] sess in
  let asked k :=
    World (w_mem w) (w_kv w) (w_stderr w ++ [MsgCreated sess; MsgLock sess])
      (w_sent w ++ ReqSessionCreate
         :: mjoin (replicate k [ReqGet lockKey; ReqAcquire lk])) in
  startSession (sess, None)
    (replicate n (AcquireSays false) ++ AcquireSays true :: rest) c w
  = (Done, mkConsul (Some lk) true (stopCh c) (interval c) (cc c),
     infof (MsgAcquired sess) (asked (S n))) ∧
  (∀ e, startSession (sess, None)
          (replicate n (AcquireSays false) ++ AcquireFails e :: rest) c w
        = (Failed e,
           mkConsul (Some lk) (locked c) (stopCh c) (interval c) (cc c),
           asked (S n))) ∧
  (∀ e, startSession (sess, None)
          (replicate n (AcquireSays false) ++ GetFails e :: rest) c w
        = (Failed e,
           mkConsul (Some lk) (locked c) (stopCh c) (interval c) (cc c),
           send (ReqGet lockKey) (asked n))).
Proof.
  intros lk asked.
  assert (∀ k, mjoin (replicate (S k) [ReqGet lockKey; ReqAcquire lk])
               = mjoin (replicate k [ReqGet lockKey; ReqAcquire lk])
                   ++ [ReqGet lockKey; ReqAcquire lk]) as Hsnoc.
  { intros k. induction k as [|k IH]; [done|]. simpl in *.
    do 2 f_equal. exact IH. }
  unfold startSession. fold lk.
  split_and!; intros; rewrite lock_loop_refused; unfold asked;
    rewrite ?Hsnoc; simpl; unfold infof, send; simpl;
    rewrite <- ?app_assoc; simpl; rewrite <- ?app_assoc; reflexivity.
Qed.

Lemma lock_loop_keeps lk : ∀ rounds c w c' w',
  lock_loop lk rounds c w = (Done, c', w') →
  c' = mkConsul (lock c) true (stopCh c) (interval c) (cc c).
Proof.
  induction rounds as [|r rounds IH]; intros c w c' w'; simpl; [done|].
  destruct r as [e|e|[]]; simpl; try done.
  - by intros [= <- _].
  - apply IH.
Qed.

(** X16: [New] hands out a watcher only when the session was created and
    the lock acquired: the watcher it returns is marked locked, holds the
    lock pair of its session under the lock key, has an open stop channel,
    the interval of the configuration and no snapshot yet; in every other
    case [New] returns no watcher. *)
Theorem New_hands_out_locked (cfg : option Config) (client leader : option error)
    (create : string * option error) (rounds : list round) (w : world)
    (r : ret) (oc : option Consul) (w' : world) :
  New cfg client leader create rounds w = (r, oc, w') →
  (r = Done ↔ is_Some oc) ∧
  ∀ c, oc = Some c →
    ∃ cf, cfg = Some cf ∧ create.2 = None ∧
      c = mkConsul (Some (mkKVPair lockKey [Byte.x6f; Byte.x6b] create.1))
            true ChOpen (Interval cf) nil_slice.
Proof.
  unfold New, startSession. destruct cfg as [cf|]; [|intros [= <- <- _]].
  2:{ split; [split; [done|by intros []]|done]. }
  destruct client; [intros [= <- <- _]|].
  { split; [split; [done|by intros []]|done]. }
  destruct leader; [intros [= <- <- _]|].
  { split; [split; [done|by intros []]|done]. }
  destruct create as [sess [e|]]; [intros [= <- <- _]|].
  { split; [split; [done|by intros []]|done]. }
  destruct (lock_loop _ _ _ _) as [[[] c1] w1] eqn:E; intros [= <- <- _];
    try (split; [split; [done|by intros []]|done]).
  apply lock_loop_keeps in E. simpl in E. split; [by split|].
  intros c [= <-]. exists cf. by rewrite E.
Qed.

Lemma New_hands_out_locked_witness :
  let made := New (Some (mkConfig "127.0.0.1:8500" "http" "dc1" 1000)) None
                None ("session-1", None)
                [AcquireSays false; AcquireSays true] world0 in
  (made.1.1 = Done ↔ is_Some made.1.2) ∧
  ∀ c, made.1.2 = Some c →
    ∃ cf, Some (mkConfig "127.0.0.1:8500" "http" "dc1" 1000) = Some cf ∧
      ("session-1", @None error).2 = None ∧
      c = mkConsul
            (Some (mkKVPair lockKey [Byte.x6f; Byte.x6b]
                     ("session-1", @None error).1))
            true ChOpen (Interval cf) nil_slice.
Proof.
  intros made.
  apply (New_hands_out_locked _ None None _
           [AcquireSays false; AcquireSays true] world0 made.1.1 made.1.2
           made.2).
  apply (triple_eta made).
Defined.

(** X17: A [Close] that failed can be called again, unlike one that
    succeeded: when the release fails, [Close] returns its error having sent
    no destroy and leaves the stop channel open; a further [Close] whose
    requests are answered then stops the watcher. *)
Theorem Close_again_after_failure (e : error) (destroy : option error)
    (c : Consul) (w : world) (lk : KVPair) :
  lock c = Some lk → locked c = true → stopCh c = ChOpen →
  ∃ w1 w2,
    Close (Some e) destroy c w = (Failed e, c, w1) ∧
    w_sent w1 = w_sent w ++ [ReqRelease lk] ∧
    Close None None c w1
    = (Done, mkConsul (lock c) (locked c) ChClosed (interval c) (cc c), w2) ∧
    w_sent w2 = w_sent w1 ++ [ReqRelease lk; ReqSessionDestroy (Session lk)].
Proof.
  intros Hl Hk Hs. unfold Close. rewrite Hl, Hk, Hs. simpl.
  eexists _, _. split_and!; try reflexivity. simpl. by rewrite <- !app_assoc.
Qed.

Lemma Close_again_after_failure_witness :
  ∃ w1 w2,
    Close (Some "invalid session") None consul0 world0
    = (Failed "invalid session", consul0, w1) ∧
    w_sent w1 = w_sent world0 ++
      [ReqRelease (mkKVPair lockKey [Byte.x6f; Byte.x6b] "session-1")] ∧
    Close None None consul0 w1
    = (Done,
       mkConsul (lock consul0) (locked consul0) ChClosed (interval consul0)
         (cc consul0), w2) ∧
    w_sent w2 = w_sent w1 ++
      [ReqRelease (mkKVPair lockKey [Byte.x6f; Byte.x6b] "session-1");
       ReqSessionDestroy
         (Session (mkKVPair lockKey [Byte.x6f; Byte.x6b] "session-1"))].
Proof.
  apply (Close_again_after_failure "invalid session" None consul0 world0);
    reflexivity.
Defined.

Lemma acquire_loop_refused : ∀ n answers c w,
  Variant.acquire_loop (replicate n (false, None) ++ answers) c w
  = Variant.acquire_loop answers c
      (World (w_mem w) (w_kv w) (w_stderr w)
         (w_sent w ++ replicate n (ReqAcquire (Variant.lock c)))).
Proof.
  induction n as [|n IH]; intros answers c w; simpl.
  - rewrite app_nil_r. by destruct w.
  - rewrite IH. simpl. by rewrite <- !app_assoc.
Qed.

(** X18: [Lock] of the other variant asks until the lock is granted: after
    any number of refusals the first grant ends it with [lockCh] made, one
    acquire having been sent per round; an error of the acquire ends it with
    that error, even when the answer says granted, and [lockCh] stays nil. *)
Theorem Lock_asks_until_granted (n : nat) (rest : list (bool * option error))
    (c : Variant.Consul) (w : world) :
  Variant.lockCh c = None →
  let asked k :=
    World (w_mem w) (w_kv w)
      (w_stderr w ++ [MsgLock (Session (Variant.lock c))])
      (w_sent w ++ replicate k (ReqAcquire (Variant.lock c))) in
  Variant.Lock (replicate n (false, None) ++ (true, None) :: rest) c w
  = (Done,
     Variant.mkConsul (Variant.lock c) (Some ChOpen) (Variant.stopCh c)
       (Variant.interval c) (Variant.cc c),
     infof (MsgAcquired (Session (Variant.lock c))) (asked (S n))) ∧
  ∀ ok e,
    Variant.Lock (replicate n (false, None) ++ (ok, Some e) :: rest) c w
    = (Failed e, c, asked (S n)).
Proof.
  intros Hn asked.
  assert (∀ k (x : request), replicate (S k) x = replicate k x ++ [x])
    as Hsnoc.
  { intros k x. induction k as [|k IH]; [done|]. simpl in *. by rewrite <- IH. }
  unfold Variant.Lock. rewrite Hn.
  split; intros; rewrite acquire_loop_refused; unfold asked;
    rewrite Hsnoc; simpl; unfold infof, send; simpl;
    rewrite <- ?app_assoc; reflexivity.
Qed.

Lemma Lock_asks_until_granted_witness :
  Variant.Lock (replicate 2 (false, None) ++ (true, None) :: []) variant0
    world0
  = (Done,
     Variant.mkConsul (Variant.lock variant0) (Some ChOpen)
       (Variant.stopCh variant0) (Variant.interval variant0)
       (Variant.cc variant0),
     infof (MsgAcquired (Session (Variant.lock variant0)))
       (World (w_mem world0) (w_kv world0)
          (w_stderr world0 ++ [MsgLock (Session (Variant.lock variant0))])
          (w_sent world0
             ++ replicate 3 (ReqAcquire (Variant.lock variant0))))) ∧
  ∀ ok e,
    Variant.Lock (replicate 2 (false, None) ++ (ok, Some e) :: []) variant0
      world0
    = (Failed e, variant0,
       World (w_mem world0) (w_kv world0)
         (w_stderr world0 ++ [MsgLock (Session (Variant.lock variant0))])
         (w_sent world0 ++ replicate 3 (ReqAcquire (Variant.lock variant0)))).
Proof. apply (Lock_asks_until_granted 2 [] variant0 world0). reflexivity. Defined.

(** X19: In the other variant a watcher is locked at most once: after a
    [Lock] that acquired and the [Unlock] that followed (which sends the
    release and returns its error, if any), every further [Lock] panics with
    "already locked" and every further [Unlock] panics too; neither sends
    anything. *)
Theorem Lock_only_once (answers : list (bool * option error))
    (release : option error) (c : Variant.Consul) (w : world)
    (c1 : Variant.Consul) (w1 : world) :
  Variant.lockCh c = None →
  Variant.Lock answers c w = (Done, c1, w1) →
  ∃ c2 w2,
    Variant.Unlock release c1 w1
    = (match release with Some e => Failed e | None => Done end, c2, w2) ∧
    w_sent w2 = w_sent w1 ++ [ReqRelease (Variant.lock c)] ∧
    (∀ answers', Variant.Lock answers' c2 w2
                 = (Panic "already locked", c2, w2)) ∧
    (∀ release', Variant.Unlock release' c2 w2
                 = (Panic "close of closed channel", c2, w2)).
Proof.
  intros Hn. unfold Variant.Lock. rewrite Hn.
  destruct (Variant.acquire_loop _ _ _) as [[] w0]; intros [= <- <-]; simpl.
  unfold Variant.Unlock. simpl. eexists _, _. split_and!; done.
Qed.

Lemma Lock_only_once_witness :
  let locked := Variant.Lock [(true, None)] variant0 world0 in
  ∃ c2 w2,
    Variant.Unlock None locked.1.2 locked.2 = (Done, c2, w2) ∧
    w_sent w2 = w_sent locked.2 ++ [ReqRelease (Variant.lock variant0)] ∧
    (∀ answers', Variant.Lock answers' c2 w2
                 = (Panic "already locked", c2, w2)) ∧
    (∀ release', Variant.Unlock release' c2 w2
                 = (Panic "close of closed channel", c2, w2)).
Proof.
  intros locked.
  apply (Lock_only_once [(true, None)] None variant0 world0 locked.1.2
           locked.2); reflexivity.
Defined.

(** X20: Renewal ends for good at the stop signal or at the first renewal
    that fails: after any number of renewals that went through, a failure
    ends the goroutine (in consul.go with a line on stderr, in the other
    variant silently) and the stop signal ends it without a renewal, and
    whatever wakes come later, no further renewal is sent. *)
Theorem renewal_ends_for_good (sess : string) (n : nat) (e : error)
    (later : list renew_wake) :
  renew_loop sess (replicate n (RenewAfter None)
                     ++ RenewAfter (Some e) :: later)
  = (Done, replicate (S n) (ActRenew sess) ++ [ActRenewError e]) ∧
  renew_loop sess (replicate n (RenewAfter None) ++ RenewStop :: later)
  = (Done, replicate n (ActRenew sess)) ∧
  variant_renew_loop sess (replicate n (RenewAfter None)
                             ++ RenewAfter (Some e) :: later)
  = (Done, replicate (S n) (ActRenew sess)) ∧
  variant_renew_loop sess (replicate n (RenewAfter None) ++ RenewStop :: later)
  = (Done, replicate n (ActRenew sess)).
Proof.
  induction n as [|n (IH1 & IH2 & IH3 & IH4)]; [done|]. simpl.
  rewrite IH1, IH2, IH3, IH4. done.
Qed.
